(** * rlcompleter: the completion engine of [Lib/rlcompleter.py]

    A shallow embedding of the [Filter], [Filterer] and [Completer] classes
    and the properties of their matching and filtering pipeline.

    Strings are Rocq strings (one character per byte, so the model covers
    ASCII text); a Python [dict] is an association list in insertion order;
    a Python [set] is a [gset]; a call that may raise returns a [result];
    observable calls into user code and into the interpreter are recorded
    in a trace of [event]s. *)

From Stdlib Require Import String Ascii ZArith Lia.
From stdpp Require Import base option list strings gmap sorting.

Set Warnings "-register-all,-clear-no-such-hyp".
Local Open Scope Z_scope.

(** ** Exceptions *)

(** The exception classes the module and its callees deal with. *)
Inductive exn : Type :=
  | BaseException
  | KeyboardInterrupt
  | SystemExit
  | Exception
  | AttributeError
  | NameError
  | SyntaxError
  | TypeError
  | ValueError
  | UnicodeError
  | IndexError
  | RuntimeError.

Global Instance exn_eq_dec : EqDecision exn.
Proof. solve_decision. Defined.

(** The direct base class of each exception class. *)
Definition exn_base (e : exn) : option exn :=
  match e with
  | BaseException => None
  | KeyboardInterrupt | SystemExit | Exception => Some BaseException
  | UnicodeError => Some ValueError
  | AttributeError | NameError | SyntaxError | TypeError | ValueError
  | IndexError | RuntimeError => Some Exception
  end.

(** [issubclass e cls], walking the (at most three) links to the root. *)
Fixpoint exn_ancestors (fuel : nat) (e : exn) : list exn :=
  match fuel with
  | O => [e]
  | S fuel' =>
      match exn_base e with
      | None => [e]
      | Some b => e :: exn_ancestors fuel' b
      end
  end.

Definition issubclass (e cls : exn) : bool :=
  bool_decide (cls ∈ exn_ancestors 3 e).

(** The outcome of a call: a value, or a raised exception. *)
Inductive result (A : Type) : Type :=
  | Ok (a : A)
  | Raise (e : exn).
Global Arguments Ok {A} a.
Global Arguments Raise {A} e.

(** ** Text *)

(** [\w] of the [re] module, on ASCII: letters, digits and underscore. *)
Definition is_word_char (c : ascii) : bool :=
  let n := N_of_ascii c in
  ((48 <=? n) && (n <=? 57) || (65 <=? n) && (n <=? 90)
   || (97 <=? n) && (n <=? 122) || (n =? 95))%N.

(** [str.isspace] on ASCII: tab to carriage return, the four separators
    FS, GS, RS, US, and the space. *)
Definition is_space_char (c : ascii) : bool :=
  let n := N_of_ascii c in
  ((9 <=? n) && (n <=? 13) || (28 <=? n) && (n <=? 32))%N.

Fixpoint lstrip (s : string) : string :=
  match s with
  | EmptyString => EmptyString
  | String c s' => if is_space_char c then lstrip s' else s
  end.

(** [s.strip()]. *)
Definition strip (s : string) : string :=
  String.rev (lstrip (String.rev (lstrip s))).

(** [word[:n]]. *)
Definition slice_to (n : nat) (word : string) : string := substring 0 n word.

(** [c in s], for a character. *)
Fixpoint contains_char (c : ascii) (s : string) : bool :=
  match s with
  | EmptyString => false
  | String c' s' => if Ascii.eqb c' c then true else contains_char c s'
  end.

(** Truth value of a string. *)
Definition str_truthy (s : string) : bool :=
  match s with EmptyString => false | _ => true end.

(** [l[i]] with Python's negative indices; [None] stands for [IndexError]. *)
Definition py_index {A} (l : list A) (i : Z) : option A :=
  let len := Z.of_nat (length l) in
  if 0 <=? i then l !! Z.to_nat i
  else if - len <=? i then l !! Z.to_nat (len + i)
  else None.

(** ** Objects *)

(** What [inspect.signature(val)] does: it returns a signature with a number
    of parameters, or raises. *)
Inductive sig_outcome : Type :=
  | Parameters (n : nat)
  | SignatureRaises (e : exn).

(** What a class defines under a name: a [property], or anything else. *)
Inductive class_attr : Type :=
  | ClsProperty
  | ClsOther.

(** A class: [dir(klass)], its own attributes and [klass.__bases__]. *)
Inductive pyclass : Type :=
  | Class (cls_name : string) (cls_dir : list string)
          (cls_attrs : list (string * class_attr)) (cls_bases : list pyclass).

Definition cls_name (k : pyclass) : string :=
  match k with Class n _ _ _ => n end.
Definition cls_dir (k : pyclass) : list string :=
  match k with Class _ d _ _ => d end.
Definition cls_attrs (k : pyclass) : list (string * class_attr) :=
  match k with Class _ _ a _ => a end.
Definition cls_bases (k : pyclass) : list pyclass :=
  match k with Class _ _ _ b => b end.

(** Lookup in an association list (a [dict]): the first entry wins. *)
Fixpoint assoc {A} (k : string) (d : list (string * A)) : option A :=
  match d with
  | [] => None
  | (k', v) :: d' => if String.eqb k' k then Some v else assoc k d'
  end.

(** Modelled from the spec: the built-ins [getattr], [type] and
    [property] are not part of the sources at hand. A member is a property
    by what the owning type defines under its name, with no look at the
    instance: [getattr(klass, name)] finds the class's own attributes
    first, then those of its bases from left to right. *)
Fixpoint class_lookup (k : pyclass) (name : string) : option class_attr :=
  match k with
  | Class _ _ attrs bases =>
      match assoc name attrs with
      | Some a => Some a
      | None =>
          (fix through (bs : list pyclass) : option class_attr :=
             match bs with
             | [] => None
             | b :: bs' =>
                 match class_lookup b name with
                 | Some a => Some a
                 | None => through bs'
                 end
             end) bases
      end
  end.

(** [isinstance(getattr(thistype, word, None), property)]. *)
Definition is_property (thistype : pyclass) (word : string) : bool :=
  match class_lookup thistype word with
  | Some ClsProperty => true
  | _ => false
  end.

(** An object, as far as the completer looks at it: whether it is [None],
    [callable(o)], the outcome of [inspect.signature(o)], [dir(o)], the
    outcome of reading each attribute from the instance (a name that is
    absent raises [AttributeError]), [type(o)] and [o.__class__] when the
    object has one. *)
Inductive pyobj : Type :=
  | PyObj (is_none : bool) (callable : bool) (signature : sig_outcome)
          (dir : list string) (attrs : list (string * result pyobj))
          (type_of : pyclass) (dunder_class : option pyclass).

Definition is_none (o : pyobj) : bool :=
  match o with PyObj b _ _ _ _ _ _ => b end.
Definition callable (o : pyobj) : bool :=
  match o with PyObj _ b _ _ _ _ _ => b end.
Definition signature (o : pyobj) : sig_outcome :=
  match o with PyObj _ _ s _ _ _ _ => s end.
Definition dir (o : pyobj) : list string :=
  match o with PyObj _ _ _ d _ _ _ => d end.
Definition attrs (o : pyobj) : list (string * result pyobj) :=
  match o with PyObj _ _ _ _ a _ _ => a end.
Definition type_of (o : pyobj) : pyclass :=
  match o with PyObj _ _ _ _ _ t _ => t end.
Definition dunder_class (o : pyobj) : option pyclass :=
  match o with PyObj _ _ _ _ _ _ c => c end.

(** [NoneType] and [None]. *)
Definition NoneType : pyclass :=
  Class "NoneType" ["__bool__"; "__class__"; "__doc__"; "__repr__"] [] [].
Definition PyNone : pyobj :=
  PyObj true false (SignatureRaises TypeError)
        ["__bool__"; "__class__"; "__doc__"; "__repr__"] [] NoneType
        (Some NoneType).

(** A [dict] with string keys, in insertion order. *)
Definition dict : Type := list (string * pyobj).

(** The values a namespace slot can hold: a [dict] (or an instance of a
    subclass), another mapping such as a [MappingProxyType], a [list], or
    any other object, of which only the truth value matters here. *)
Inductive scope : Type :=
  | ScopeDict (d : dict)
  | ScopeMapping (d : dict)
  | ScopeList (xs : list pyobj)
  | ScopeOther (truthy : bool).

Definition scope_truthy (s : scope) : bool :=
  match s with
  | ScopeDict d | ScopeMapping d => match d with [] => false | _ => true end
  | ScopeList xs => match xs with [] => false | _ => true end
  | ScopeOther b => b
  end.

(** ** Filters *)

(** What a filter is asked about: a namespace or an object. *)
Inductive target : Type :=
  | OfScope (nspace : scope)
  | OfObject (instance : pyobj).

(** The keyword arguments [**options] of [Filter.filter]: [owner] and
    [property], each present or not. *)
Record options : Type := Options {
  opt_owner : option pyclass;
  opt_property : option bool;
}.

Definition no_options : options := Options None None.

(** [class Filter]: a priority and the [filter] method, which may raise. *)
Record Filter : Type := MkFilter {
  priority : Z;
  filter : target → string → pyobj → string → options → result bool;
}.

Definition default_priority : Z := 500.

(** [Filter.filter], [NamespaceFilter.filter] and [AttributeFilter.filter]
    all return [True]. *)
Definition Filter_filter
  : target → string → pyobj → string → options → result bool :=
  λ _ _ _ _ _, Ok true.

(** [Filter.__init__(self, priority=None)], for a subclass whose [filter]
    method is [method]. *)
Definition Filter_init
    (method : target → string → pyobj → string → options → result bool)
    (priority : option Z) : Filter :=
  match priority with
  | None => MkFilter default_priority method
  | Some p => MkFilter p method
  end.

(** A reference to a filter object. [Filter] defines no [__eq__], so [==]
    on filters is identity: equality of references. *)
Definition fref : Type := nat.

(** ** Effects *)

(** The calls that leave the module: [eval], reading an attribute from an
    instance (with [EvGetter] when that runs a property's getter), a
    filter's [filter] method, and the two [readline] calls. *)
Inductive event : Type :=
  | EvEval (expr : string) (globals : scope)
  | EvGetattr (o : pyobj) (name : string)
  | EvGetter (o : pyobj) (name : string)
  | EvFilter (f : fref) (tgt : target) (suggestion : string) (value : pyobj)
             (text : string) (opts : options)
  | EvInsertText (s : string)
  | EvRedisplay.

(** A computation: the events it produced and its outcome. *)
Definition M (A : Type) : Type := list event * result A.

Global Instance M_ret : MRet M := λ A a, ([], Ok a).

(** Sequencing: the events add up, an exception ends the computation. *)
Definition bind {A B} (m : M A) (k : A → M B) : M B :=
  match m with
  | (t, Ok a) => let '(t', r) := k a in (t ++ t', r)
  | (t, Raise e) => (t, Raise e)
  end.

Global Arguments bind : simpl never.

Declare Scope M_scope.
Notation "x ← y ; z" := (bind y (λ x : _, z))
  (at level 20, y at level 100, z at level 200, only parsing) : M_scope.
Local Open Scope M_scope.

Definition raise {A} (e : exn) : M A := ([], Raise e).
Definition tell (ev : event) : M unit := ([ev], Ok tt).
Definition lift {A} (r : result A) : M A := ([], r).
Definition events {A} (m : M A) : list event := m.1.
Definition outcome {A} (m : M A) : result A := m.2.

(** [try: m  except cls: handler]. *)
Definition try_except {A} (m : M A) (cls : exn) (handler : M A) : M A :=
  match m with
  | (t, Raise e) =>
      if issubclass e cls then let '(t', r) := handler in (t ++ t', r)
      else (t, Raise e)
  | _ => m
  end.

(** Modelled from the spec: the built-in [getattr] is not part of the
    sources at hand. [getattr(o, name)] on an instance is one access of
    the member: the read is recorded, and the getter runs when [name] is a
    property of [type(o)]. *)
Definition getattr (o : pyobj) (name : string) : M pyobj :=
  _ ← tell (EvGetattr o name);
  _ ← (if is_property (type_of o) name then tell (EvGetter o name)
       else mret tt);
  match assoc name (attrs o) with
  | Some r => lift r
  | None => raise AttributeError
  end.

(** [getattr(o, name, default)]. *)
Definition getattr_default (o : pyobj) (name : string) (default : pyobj)
  : M pyobj :=
  try_except (getattr o name) AttributeError (mret default).

(** Modelled from the spec: attribute access is not part of the sources at
    hand. [o.__class__] on an instance is one access of the member
    [__class__], recorded as [getattr] records any access, with the getter
    when [__class__] is a property of [type(o)]. It raises what reading
    [__class__] from the instance raises, and gives the class of the
    object otherwise; an object without one raises [AttributeError]. *)
Definition getattr_class (o : pyobj) : M pyclass :=
  _ ← tell (EvGetattr o "__class__");
  _ ← (if is_property (type_of o) "__class__"
       then tell (EvGetter o "__class__")
       else mret tt);
  match assoc "__class__" (attrs o) with
  | Some (Raise e) => raise e
  | _ =>
      match dunder_class o with
      | Some klass => mret klass
      | None => raise AttributeError
      end
  end.

(** [hasattr(o, '__class__')]: the access, where [AttributeError] is the
    answer [False] and any other exception goes through. *)
Definition hasattr_class (o : pyobj) : M bool :=
  try_except (_ ← getattr_class o; mret true) AttributeError (mret false).

(** ** The interpreter around the module *)

(** What the module imports and does not define: [builtins.__dict__],
    [__main__.__dict__], [keyword.kwlist] and [keyword.softkwlist], the
    built-in [eval(expr, globals)], whether [import readline] succeeded, and
    the heap that holds the filter objects. *)
Record runtime : Type := Runtime {
  builtins_dict : dict;
  main_dict : dict;
  kwlist : list string;
  softkwlist : list string;
  eval : string → scope → M pyobj;
  _readline_available : bool;
  heap : fref → Filter;
}.

(** ** [class Filterer] *)

Section Filterer.
Context (rt : runtime).

(** [filter in filters]. *)
Definition _has_filter (filters : list fref) (filter : fref) : bool :=
  negb (bool_decide (filters = [])) && bool_decide (filter ∈ filters).

(** How the [for] loop of [_add_filter] ends: by [return False], or by
    falling out of the loop (or [break]) with [pos]. *)
Inductive add_scan : Type :=
  | AlreadyRegistered
  | Position (pos : Z).

(** The loop of [_add_filter] from index [i] on. *)
Fixpoint _add_filter_scan (i : Z) (filters : list fref) (filter : fref)
  : add_scan :=
  match filters with
  | [] => Position (-1)
  | f :: rest =>
      if bool_decide (f = filter) then AlreadyRegistered
      else if priority (heap rt filter) <? priority (heap rt f)
      then Position i
      else _add_filter_scan (i + 1) rest filter
  end.

(** [list.insert(pos, x)] for [0 <= pos]. *)
Definition list_insert_at {A} (pos : Z) (x : A) (l : list A) : list A :=
  take (Z.to_nat pos) l ++ x :: drop (Z.to_nat pos) l.

(** [_add_filter(filters, filter)]: the list after the call and the value
    returned. *)
Definition _add_filter (filters : list fref) (filter : fref)
  : list fref * bool :=
  match _add_filter_scan 0 filters filter with
  | AlreadyRegistered => (filters, false)
  | Position pos =>
      if pos =? -1 then (filters ++ [filter], true)
      else (list_insert_at pos filter filters, true)
  end.

(** [list.remove(x)]: drops the first occurrence. *)
Fixpoint list_remove (x : fref) (l : list fref) : list fref :=
  match l with
  | [] => []
  | y :: l' => if bool_decide (y = x) then l' else y :: list_remove x l'
  end.

Definition _remove_filter (filters : list fref) (filter : fref)
  : list fref * bool :=
  if negb (bool_decide (filters = [])) && bool_decide (filter ∈ filters)
  then (list_remove filter filters, true)
  else (filters, false).

(** One call [f.filter(target, suggestion, value, text, **options)]. *)
Definition call_filter (f : fref) (tgt : target) (suggestion : string)
    (value : pyobj) (text : string) (opts : options) : M bool :=
  _ ← tell (EvFilter f tgt suggestion value text opts);
  lift (filter (heap rt f) tgt suggestion value text opts).

(** [_filter(filters, target, suggestion, value, text, **options)]. *)
Fixpoint _filter (filters : list fref) (tgt : target) (suggestion : string)
    (value : pyobj) (text : string) (opts : options) : M bool :=
  match filters with
  | [] => mret true
  | f :: rest =>
      keep ← call_filter f tgt suggestion value text opts;
      if negb keep then mret false
      else _filter rest tgt suggestion value text opts
  end.
End Filterer.

(** ** The pattern of [attr_matches] *)

(** Modelled from the spec: the [re] module is not part of the sources at
    hand. This is [re.compile(pattern).match(text)] for the pattern of
    [attr_matches], written here with spaces between its parts:
    [( \w+ ( \. \w+ )* ) \. ( \w* )], a chain of one or more runs of
    word characters joined by dots, a dot, and a run of zero or more word
    characters, as the automaton the pattern compiles to. [expr] is group 1 as matched so far ([None] before
    the first dot), [cur] the run of word characters after the last dot.
    The match is anchored at the start of [text] only: the scan stops at the
    first character that cannot extend it. *)
Definition match_finish (expr : option string) (cur : string)
  : option (string * string) :=
  match expr with
  | Some e => Some (e, cur)
  | None => None
  end.

Definition chain_extend (expr : option string) (cur : string) : string :=
  match expr with
  | Some e => e +:+ "." +:+ cur
  | None => cur
  end.

Fixpoint match_scan (expr : option string) (cur : string) (s : string)
  : option (string * string) :=
  match s with
  | EmptyString => match_finish expr cur
  | String c s' =>
      if is_word_char c then match_scan expr (cur +:+ String c "") s'
      else if Ascii.eqb c "." && str_truthy cur
      then match_scan (Some (chain_extend expr cur)) "" s'
      else match_finish expr cur
  end.

(** [m.group(1, 3)] of the match, or [None] when there is no match. *)
Definition re_match (text : string) : option (string * string) :=
  match_scan None "" text.

(** ** [class Completer] *)

(** The instance attributes. [namespace] and [matches] are not set by every
    path through [__init__], hence the options. [use_main_ns] is [1] or [0]
    as in the source. *)
Record Completer : Type := MkCompleter {
  namespace_filters : list fref;
  attribute_filters : list fref;
  use_main_ns : Z;
  namespace : option scope;
  matches : option (list string);
}.

(** [Completer.__init__(self, namespace=None)]; the argument [None] of the
    model is Python's [None]. *)
Definition Completer_init (namespace : option scope) : result Completer :=
  (* Filterer.__init__(self) *)
  let namespace_filters := [] in
  let attribute_filters := [] in
  let truthy := from_option scope_truthy false namespace in
  let isinstance_dict :=
    match namespace with Some (ScopeDict _) => true | _ => false end in
  if truthy && negb isinstance_dict then Raise TypeError
  else
    match namespace with
    | None => Ok (MkCompleter namespace_filters attribute_filters 1 None None)
    | Some ns =>
        Ok (MkCompleter namespace_filters attribute_filters 0 (Some ns) None)
    end.

(** The keywords that get [':'], and those that get nothing. *)
Definition colon_keywords : list string := ["finally"; "try"].
Definition bare_keywords : list string :=
  ["False"; "None"; "True"; "break"; "continue"; "pass"; "else"; "_"].

(** The decoration of a keyword in the first loop of [global_matches]. *)
Definition keyword_word (word : string) : string :=
  if bool_decide (word ∈ colon_keywords) then word +:+ ":"
  else if negb (bool_decide (word ∈ bare_keywords)) then word +:+ " "
  else word.

(** The first loop of [global_matches], over the keyword list. *)
Fixpoint keyword_loop (text : string) (words : list string)
    (matches : list string) (seen : gset string)
  : list string * gset string :=
  match words with
  | [] => (matches, seen)
  | word :: rest =>
      if bool_decide (slice_to (String.length text) word = text)
      then keyword_loop text rest (matches ++ [keyword_word word])
                        ({[word]} ∪ seen)
      else keyword_loop text rest matches seen
  end.

(** [nspace.items()]. *)
Definition items (nspace : scope) : M (list (string * pyobj)) :=
  match nspace with
  | ScopeDict d | ScopeMapping d => mret d
  | ScopeList _ | ScopeOther _ => raise AttributeError
  end.

(** [self.namespace], which raises when the attribute was never set. *)
Definition get_namespace (self : Completer) : M scope :=
  match namespace self with
  | Some ns => mret ns
  | None => raise AttributeError
  end.

(** The three rungs of the suppression ladder of [attr_matches]. *)
Definition initial_noprefix (attr : string) : option string :=
  if bool_decide (attr = "") then Some "_"
  else if bool_decide (attr = "_") then Some "__"
  else None.

Definition noprefix_truthy (noprefix : option string) : bool :=
  from_option str_truthy false noprefix.

Definition relax (noprefix : option string) : option string :=
  if bool_decide (noprefix = Some "_") then Some "__" else None.

(** [word[:n] == attr and not (noprefix and word[:n+1] == noprefix)]. *)
Definition word_selected (attr : string) (noprefix : option string)
    (word : string) : bool :=
  let n := String.length attr in
  bool_decide (slice_to n word = attr)
  && negb (noprefix_truthy noprefix
           && bool_decide (Some (slice_to (n + 1) word) = noprefix)).

(** [_iter_class_members(klass)], as the list it yields. *)
Fixpoint _iter_class_members (klass : pyclass) : list string :=
  match klass with
  | Class _ d _ bases => d ++ flat_map _iter_class_members bases
  end.

Definition get_class_members (klass : pyclass) : list string :=
  _iter_class_members klass.

(** The set [words] of [attr_matches]: [dir(thisobject)] without
    ["__builtins__"], and for an object that has a [__class__] also
    ["__class__"] and the members of the class. The object is asked for
    its [__class__] twice, by [hasattr] and by the access itself. *)
Definition attr_words (thisobject : pyobj) : M (gset string) :=
  let words : gset string := list_to_set (dir thisobject) in
  let words := words ∖ {["__builtins__"]} in
  has ← hasattr_class thisobject;
  if has then
    let words := {["__class__"]} ∪ words in
    klass ← getattr_class thisobject;
    mret (words ∪ list_to_set (_iter_class_members klass))
  else mret words.

(** [matches.sort()]. *)
Definition sort (l : list string) : list string := merge_sort String.le l.

Definition tab : string := String (ascii_of_nat 9) "".

Section Completer.
Context (rt : runtime).

Definition add_namespace_filter (self : Completer) (f : fref)
  : Completer * bool :=
  let '(filters, r) := _add_filter rt (namespace_filters self) f in
  (MkCompleter filters (attribute_filters self) (use_main_ns self)
               (namespace self) (matches self), r).

Definition add_attribute_filter (self : Completer) (f : fref)
  : Completer * bool :=
  let '(filters, r) := _add_filter rt (attribute_filters self) f in
  (MkCompleter (namespace_filters self) filters (use_main_ns self)
               (namespace self) (matches self), r).

Definition remove_namespace_filter (self : Completer) (f : fref)
  : Completer * bool :=
  let '(filters, r) := _remove_filter (namespace_filters self) f in
  (MkCompleter filters (attribute_filters self) (use_main_ns self)
               (namespace self) (matches self), r).

Definition remove_attribute_filter (self : Completer) (f : fref)
  : Completer * bool :=
  let '(filters, r) := _remove_filter (attribute_filters self) f in
  (MkCompleter (namespace_filters self) filters (use_main_ns self)
               (namespace self) (matches self), r).

Definition filter_namespace (self : Completer) (nspace : scope)
    (key : string) (value : pyobj) (text : string) (opts : options)
  : M bool :=
  _filter rt (namespace_filters self) (OfScope nspace) key value text opts.

Definition filter_attribute (self : Completer) (instance : pyobj)
    (name : string) (value : pyobj) (text : string) (opts : options)
  : M bool :=
  _filter rt (attribute_filters self) (OfObject instance) name value text
          opts.

(** [_callable_postfix(val, word)]. Only [ValueError] (and its
    subclasses) is handled around [inspect.signature]. *)
Definition _callable_postfix (val : pyobj) (word : string) : M string :=
  if callable val then
    let word := word +:+ "(" in
    match signature val with
    | Parameters n =>
        if bool_decide (n = 0%nat) then mret (word +:+ ")") else mret word
    | SignatureRaises e =>
        if issubclass e ValueError then mret word else raise e
    end
  else mret word.

(** The inner loop of [global_matches], over [nspace.items()]. *)
Fixpoint namespace_loop (self : Completer) (text : string) (nspace : scope)
    (its : list (string * pyobj)) (matches : list string)
    (seen : gset string) : M (list string * gset string) :=
  match its with
  | [] => mret (matches, seen)
  | (word, value) :: rest =>
      if bool_decide (slice_to (String.length text) word = text)
         && negb (bool_decide (word ∈ seen))
      then
        let seen := {[word]} ∪ seen in
        keep ← filter_namespace self nspace word value text no_options;
        if keep then
          m ← _callable_postfix value word;
          namespace_loop self text nspace rest (matches ++ [m]) seen
        else namespace_loop self text nspace rest matches seen
      else namespace_loop self text nspace rest matches seen
  end.

(** The outer loop of [global_matches], over the namespaces. *)
Fixpoint nspaces_loop (self : Completer) (text : string)
    (nspaces : list scope) (matches : list string) (seen : gset string)
  : M (list string * gset string) :=
  match nspaces with
  | [] => mret (matches, seen)
  | nspace :: rest =>
      its ← items nspace;
      st ← namespace_loop self text nspace its matches seen;
      nspaces_loop self text rest st.1 st.2
  end.

(** [global_matches(self, text)]. *)
Definition global_matches (self : Completer) (text : string)
  : M (list string) :=
  let matches := [] in
  let seen : gset string := {["__builtins__"]} in
  let '(matches, seen) :=
    keyword_loop text (kwlist rt ++ softkwlist rt) matches seen in
  ns ← get_namespace self;
  st ← nspaces_loop self text [ns; ScopeDict (builtins_dict rt)]
                    matches seen;
  mret st.1.

(** The body of the [for word in words] loop of [attr_matches]: the
    candidate it appends to [matches], if any. *)
Definition attr_candidate (self : Completer) (text expr attr : string)
    (thisobject : pyobj) (thistype : pyclass) (noprefix : option string)
    (word : string) : M (option string) :=
  if word_selected attr noprefix word then
    let match_ := expr +:+ "." +:+ word in
    if is_property thistype word then
      keep ← filter_attribute self thisobject word PyNone text
               (Options (Some thistype) (Some true));
      if keep then mret (Some match_) else mret None
    else
      value ← getattr_default thisobject word PyNone;
      keep ← filter_attribute self thisobject word value text no_options;
      if negb keep then mret None
      else if negb (is_none value) then
        m ← _callable_postfix value match_;
        mret (Some m)
      else mret (Some match_)
  else mret None.

Fixpoint words_loop (self : Completer) (text expr attr : string)
    (thisobject : pyobj) (thistype : pyclass) (noprefix : option string)
    (words : list string) (matches : list string) : M (list string) :=
  match words with
  | [] => mret matches
  | word :: rest =>
      c ← attr_candidate self text expr attr thisobject thistype noprefix
            word;
      words_loop self text expr attr thisobject thistype noprefix rest
                 (matches ++ option_list c)
  end.

(** The [while True] loop of [attr_matches]. It runs at most three times
    (the ladder has three rungs), which is the fuel [attr_matches] gives
    it. *)
Fixpoint relax_loop (fuel : nat) (self : Completer)
    (text expr attr : string) (thisobject : pyobj) (thistype : pyclass)
    (words : gset string) (noprefix : option string)
    (matches : list string) : M (list string) :=
  match fuel with
  | O => mret matches
  | S fuel' =>
      matches ← words_loop self text expr attr thisobject thistype
                  noprefix (elements words) matches;
      if negb (bool_decide (matches = [])) || negb (noprefix_truthy noprefix)
      then mret matches
      else relax_loop fuel' self text expr attr thisobject thistype words
                      (relax noprefix) matches
  end.

(** [attr_matches] once [thisobject] is known: from [thistype = ...] to
    the end. *)
Definition attr_scan (self : Completer) (text expr attr : string)
    (thisobject : pyobj) : M (list string) :=
  let thistype := type_of thisobject in
  words ← attr_words thisobject;
  let matches := [] in
  matches ← relax_loop 3 self text expr attr thisobject thistype words
              (initial_noprefix attr) matches;
  mret (sort matches).

(** [attr_matches(self, text)]. *)
Definition attr_matches (self : Completer) (text : string)
  : M (list string) :=
  match re_match text with
  | None => mret []
  | Some (expr, attr) =>
      r ← try_except
            (ns ← get_namespace self;
             _ ← tell (EvEval expr ns);
             thisobject ← eval rt expr ns;
             mret (Some thisobject))
            Exception (mret None);
      match r with
      | None => mret []
      | Some thisobject => attr_scan self text expr attr thisobject
      end
  end.

(** [get_matches(self, text)]. *)
Definition get_matches (self : Completer) (text : string)
  : M (list string) :=
  if contains_char "." text then attr_matches self text
  else global_matches self text.

(** The first statement of [complete]:
    [if self.use_main_ns: self.namespace = __main__.__dict__]. *)
Definition bind_namespace (self : Completer) : Completer :=
  if negb (use_main_ns self =? 0)
  then MkCompleter (namespace_filters self) (attribute_filters self)
         (use_main_ns self) (Some (ScopeDict (main_dict rt)))
         (matches self)
  else self.

(** [complete(self, text, state)]: the instance after the call and what
    the call did. [warnings.catch_warnings] silences warnings and handles
    no exception. The result [None] is Python's [None]. *)
Definition complete (self : Completer) (text : string) (state : Z)
  : Completer * M (option string) :=
  let self := bind_namespace self in
  if negb (str_truthy (strip text)) then
    (self,
     if state =? 0 then
       if _readline_available rt
       then (_ ← tell (EvInsertText tab); _ ← tell EvRedisplay;
             mret (Some ""))
       else mret (Some tab)
     else mret None)
  else
    let computed : Completer * M unit :=
      if state =? 0 then
        match get_matches self text with
        | (t, Ok ms) =>
            (MkCompleter (namespace_filters self) (attribute_filters self)
               (use_main_ns self) (namespace self) (Some ms), (t, Ok tt))
        | (t, Raise e) => (self, (t, Raise e))
        end
      else (self, mret tt) in
    (computed.1,
     _ ← computed.2;
     match matches computed.1 with
     | None => raise AttributeError
     | Some ms =>
         match py_index ms state with
         | Some m => mret (Some m)
         | None => mret None
         end
     end).
End Completer.

(** ** A concrete interpreter, for the examples *)

(** [expr.split(".")]. *)
Fixpoint split_dots (cur : string) (s : string) : list string :=
  match s with
  | EmptyString => [cur]
  | String c s' =>
      if Ascii.eqb c "." then cur :: split_dots "" s'
      else split_dots (cur +:+ String c "") s'
  end.

(** Modelled from the spec: the built-in [eval] is not part of the sources
    at hand. Its use on a dotted chain of names resolves the first name in
    the globals, then in the built-ins, and follows the remaining names by
    attribute access; globals that are not a [dict] are a [TypeError]. *)
Fixpoint resolve_chain (o : pyobj) (names : list string) : M pyobj :=
  match names with
  | [] => mret o
  | name :: rest => v ← getattr o name; resolve_chain v rest
  end.

Definition eval_dotted (builtins : dict) (expr : string) (globals : scope)
  : M pyobj :=
  match globals with
  | ScopeDict d =>
      match split_dots "" expr with
      | [] => raise SyntaxError
      | name :: rest =>
          match assoc name d with
          | Some o => resolve_chain o rest
          | None =>
              match assoc name builtins with
              | Some o => resolve_chain o rest
              | None => raise NameError
              end
          end
      end
  | _ => raise TypeError
  end.

(** Modelled from the spec: the [keyword] module is not part of the
    sources at hand. These are the language keywords and the soft keywords,
    as [keyword.kwlist] and [keyword.softkwlist] of CPython 3.12 list
    them. *)
Definition cpython_kwlist : list string :=
  ["False"; "None"; "True"; "and"; "as"; "assert"; "async"; "await";
   "break"; "class"; "continue"; "def"; "del"; "elif"; "else"; "except";
   "finally"; "for"; "from"; "global"; "if"; "import"; "in"; "is";
   "lambda"; "nonlocal"; "not"; "or"; "pass"; "raise"; "return"; "try";
   "while"; "with"; "yield"].
Definition cpython_softkwlist : list string := ["_"; "case"; "match"; "type"].

(** The class [object] and a few objects. *)
Definition object_class : pyclass :=
  Class "object" ["__class__"; "__doc__"; "__init__"] [] [].

(** A plain value such as an [int]: not callable. *)
Definition plain_value : pyobj :=
  PyObj false false (SignatureRaises TypeError) ["__class__"; "__doc__"] []
        object_class (Some object_class).

(** A function of [n] parameters. *)
Definition function_of (n : nat) : pyobj :=
  PyObj false true (Parameters n) ["__call__"; "__class__"; "__doc__"] []
        object_class (Some object_class).

(** A callable whose signature cannot be found: [inspect.signature] raises
    [e]. *)
Definition opaque_callable (e : exn) : pyobj :=
  PyObj false true (SignatureRaises e) ["__call__"; "__class__"] []
        object_class (Some object_class).

Definition sample_builtins : dict :=
  [("None", PyNone); ("Ellipsis", plain_value); ("len", function_of 1);
   ("memoryview", opaque_callable ValueError); ("print", function_of 5);
   ("spam", function_of 2)].

(** A heap of filters, all of the default priority but the last kind:
    reference [0] accepts, [1] rejects everything, [2] raises [ValueError],
    [3] rejects names that start with an underscore, [4] keeps callable
    values only; a reference [f] from [5] on is an accepting filter of
    priority [10 * (f / 10)], so that [50] has priority [50] and [10] and
    [11] both have priority [10]. *)
Definition sample_heap (f : fref) : Filter :=
  match f with
  | 0%nat => Filter_init Filter_filter None
  | 1%nat => Filter_init (λ _ _ _ _ _, Ok false) None
  | 2%nat => Filter_init (λ _ _ _ _ _, Raise ValueError) None
  | 3%nat =>
      Filter_init (λ _ name _ _ _, Ok (negb (String.prefix "_" name))) None
  | 4%nat => Filter_init (λ _ _ value _ _, Ok (callable value)) None
  | _ => Filter_init Filter_filter (Some (10 * (Z.of_nat f / 10)))
  end.

Definition sample_runtime : runtime :=
  Runtime sample_builtins [] cpython_kwlist cpython_softkwlist
          (eval_dotted sample_builtins) false sample_heap.

(** An object with a data attribute and a method, as [CompleteMe] of the
    tests. *)
Definition egg_class : pyclass :=
  Class "Egg" ["__class__"; "spam"; "strip"] [("strip", ClsOther)]
        [object_class].
Definition egg_object : pyobj :=
  PyObj false false (SignatureRaises TypeError) ["__class__"; "spam"; "strip"]
        [("__class__", Ok (function_of 0)); ("spam", Ok plain_value);
         ("strip", Ok (function_of 1))]
        egg_class (Some egg_class).

(** An instance of a class with a property [bar] and a method [baz]. *)
Definition foo_class : pyclass :=
  Class "Foo" ["bar"; "baz"] [("bar", ClsProperty); ("baz", ClsOther)] [].
Definition foo_object : pyobj :=
  PyObj false false (SignatureRaises TypeError) ["bar"; "baz"]
        [("bar", Ok plain_value); ("baz", Ok (function_of 0))]
        foo_class (Some foo_class).

(** An object all of whose members start with an underscore. *)
Definition private_class : pyclass :=
  Class "Private" ["__class__"; "__doc__"; "_sunder"] [] [].
Definition private_object : pyobj :=
  PyObj false false (SignatureRaises TypeError)
        ["__class__"; "__doc__"; "_sunder"]
        [("__class__", Ok (function_of 0)); ("__doc__", Ok PyNone);
         ("_sunder", Ok plain_value)]
        private_class (Some private_class).

Definition sample_namespace : dict :=
  [("spam", function_of 0); ("egg", egg_object); ("f", foo_object);
   ("x", private_object); ("len", plain_value)].

(** A completer over [sample_namespace] with the given filter chains. *)
Definition sample_completer (namespace_filters attribute_filters : list fref)
  : Completer :=
  MkCompleter namespace_filters attribute_filters 0
              (Some (ScopeDict sample_namespace)) None.


(** A namespace with a key that ends like a decoration, beside the name
    of a function. *)
Definition decorated_namespace : dict :=
  [("foo", function_of 1); ("foo(", plain_value)].

(** An object one of whose members cannot be read: the access of [boom]
    raises [RuntimeError], as a [__getattr__] hook or a descriptor can. *)
Definition broken_object : pyobj :=
  PyObj false false (SignatureRaises TypeError) ["boom"; "fine"]
        [("boom", Raise RuntimeError); ("fine", Ok plain_value)]
        object_class None.

(** A class with two bases that share a base. *)
Definition base_class : pyclass := Class "Base" ["ping"] [] [object_class].
Definition left_class : pyclass := Class "Left" ["left"] [] [base_class].
Definition right_class : pyclass := Class "Right" ["right"] [] [base_class].
Definition diamond_class : pyclass :=
  Class "Diamond" ["own"] [] [left_class; right_class].

(** ** The vocabulary of the statements *)

(** [text] is a literal prefix of [word]. *)
Definition is_prefix (text word : string) : Prop :=
  ∃ rest, word = text +:+ rest.

(** What [_callable_postfix] can make of [base]. *)
Definition postfixed (base cand : string) : Prop :=
  cand = base ∨ cand = base +:+ "(" ∨ cand = base +:+ "()".

(** What [global_matches] can make of the name [base]. *)
Definition decorated (base cand : string) : Prop :=
  cand = base ∨ cand = base +:+ " " ∨ cand = base +:+ ":"
  ∨ cand = base +:+ "(" ∨ cand = base +:+ "()".

(** The trailing decorations of a candidate. *)
Definition decorations : list string := ["()"; "("; ":"; " "].

(** A candidate without its trailing decoration. *)
Fixpoint undecorate (cand : string) : string :=
  match cand with
  | EmptyString => EmptyString
  | String c rest =>
      if bool_decide (cand ∈ decorations) then EmptyString
      else String c (undecorate rest)
  end.

(** A possibly empty run of word characters. *)
Fixpoint is_word (s : string) : bool :=
  match s with
  | EmptyString => true
  | String c s' => is_word_char c && is_word s'
  end.

(** A name: a run of at least one word character. *)
Definition is_name (s : string) : bool := str_truthy s && is_word s.

(** The strings of group 1 of the pattern: names joined by dots. *)
Inductive dotted_chain : string → Prop :=
  | chain_name w : is_name w = true → dotted_chain w
  | chain_dot e w :
      dotted_chain e → is_name w = true → dotted_chain (e +:+ "." +:+ w).

(** [text] starts with a match of the whole pattern. *)
Definition prefix_shape (text : string) : Prop :=
  ∃ chain partial rest,
    text = chain +:+ "." +:+ partial +:+ rest
    ∧ dotted_chain chain ∧ is_word partial = true.

(** [text] is a match of the whole pattern, from its start to its end. *)
Definition entire_shape (text : string) : Prop :=
  ∃ chain partial,
    text = chain +:+ "." +:+ partial
    ∧ dotted_chain chain ∧ is_word partial = true.

(** The match cannot be extended into [rest]: [rest] is empty, or starts
    with a character that is no word character, and that is a dot only
    after an empty group 3. *)
Definition stops_match (a rest : string) : Prop :=
  match rest with
  | EmptyString => True
  | String c _ => is_word_char c = false ∧ (c = "."%char → a = "")
  end.

(** Only word characters and dots. *)
Fixpoint chain_chars (s : string) : bool :=
  match s with
  | EmptyString => true
  | String c s' => (is_word_char c || Ascii.eqb c ".") && chain_chars s'
  end.

(** What [match_scan] has read so far. *)
Definition scanned (expr : option string) (cur : string) : string :=
  match expr with
  | Some e => e +:+ "." +:+ cur
  | None => cur
  end.

(** The words of [ws] that start with [text]. *)
Definition selected (text : string) (ws : list string) : list string :=
  base.filter (λ w, slice_to (String.length text) w = text) ws.

(** All keywords, hard and soft. *)
Definition keywords (rt : runtime) : list string :=
  kwlist rt ++ softkwlist rt.

(** The keyword candidates for [text], decorated. *)
Definition keyword_matches (rt : runtime) (text : string) : list string :=
  keyword_word <$> selected text (keywords rt).

(** The keys of a namespace that has some. *)
Definition scope_keys (ns : option scope) : list string :=
  match ns with
  | Some (ScopeDict d) | Some (ScopeMapping d) => d.*1
  | _ => []
  end.

(** A call of a filter on a keyword. *)
Definition filters_keyword (rt : runtime) (ev : event) : Prop :=
  match ev with
  | EvFilter _ _ w _ _ _ => w ∈ keywords rt
  | _ => False
  end.





(** How many more times the suppression rule can be relaxed. *)
Definition rungs (noprefix : option string) : nat :=
  if bool_decide (noprefix = Some "_") then 2
  else if noprefix_truthy noprefix then 1 else 0.

(** The priority of the filter behind a reference, and the order of a
    chain. *)
Definition prio (rt : runtime) (f : fref) : Z := priority (heap rt f).
Definition prio_le (rt : runtime) (f g : fref) : Prop := prio rt f ≤ prio rt g.

(** The chain after registering [fs] in order, starting from [chain]. *)
Definition add_all (rt : runtime) (chain : list fref) (fs : list fref)
  : list fref :=
  foldl (λ c f, (_add_filter rt c f).1) chain fs.

(** The filters of [fs] in the order of their first registration. *)
Definition first_registrations (fs : list fref) : list fref :=
  foldl (λ acc f, if bool_decide (f ∈ acc) then acc else acc ++ [f]) [] fs.

(** The filters of priority [p] in a chain, in chain order. *)
Definition with_priority (rt : runtime) (p : Z) (chain : list fref)
  : list fref :=
  base.filter (λ f, prio rt f = p) chain.

(** Only whitespace, or nothing at all. *)
Fixpoint is_blank (s : string) : bool :=
  match s with
  | EmptyString => true
  | String c s' => is_space_char c && is_blank s'
  end.

(** Whether an event reads the member [w] from an instance. *)
Definition reads_of (w : string) (ev : event) : bool :=
  match ev with
  | EvGetattr _ w' => bool_decide (w' = w)
  | _ => false
  end.

(** How many times a trace reads the member [w]. *)
Definition reads (w : string) (t : list event) : nat :=
  length (List.filter (reads_of w) t).

(** The passes the loop of [attr_matches] can make for [attr]. *)
Definition passes (attr : string) : nat :=
  if bool_decide (attr = "") then 3
  else if bool_decide (attr = "_") then 2 else 1.

(** The candidate of the first pass of [attr_matches] for [w], if the body
    of the loop gives one. *)
Definition first_pass_candidate (rt : runtime) (self : Completer)
    (text expr attr : string) (thisobject : pyobj) (w : string)
  : option string :=
  match outcome (attr_candidate rt self text expr attr thisobject
                   (type_of thisobject) (initial_noprefix attr) w) with
  | Ok c => c
  | Raise _ => None
  end.

(** [a] is [k] or one of the classes reached from [k] through
    [__bases__]. *)
Inductive in_mro (a : pyclass) : pyclass → Prop :=
  | in_mro_self : in_mro a a
  | in_mro_base k b : b ∈ cls_bases k → in_mro a b → in_mro a k.

(** The instance after a run of calls of [complete], each with its text
    and state. *)
Definition after_calls (rt : runtime) (self : Completer)
    (calls : list (string * Z)) : Completer :=
  foldl (λ s c, (complete rt s c.1 c.2).1) self calls.

(** No namespace at hand, or one without [items()]. *)
Definition no_mapping (ns : option scope) : Prop :=
  match ns with
  | Some (ScopeDict _) | Some (ScopeMapping _) => False
  | _ => True
  end.

(** The completer with no filter registered. *)
Definition without_filters (self : Completer) : Completer :=
  MkCompleter [] [] (use_main_ns self) (namespace self) (matches self).

(** The verdict of one filter, where an exception counts as no
    acceptance. *)
Definition accepts (r : result bool) : bool :=
  match r with Ok true => true | _ => false end.

(** * Properties *)

(** ** Computations *)

Lemma bind_events {A B} (m : M A) (k : A → M B) :
  events (bind m k)
  = events m ++ match outcome m with Ok a => events (k a) | Raise _ => [] end.
Proof.
  unfold bind. destruct m as [t [a|e]]; simpl; [|by rewrite app_nil_r].
  by destruct (k a).
Qed.

Lemma bind_outcome {A B} (m : M A) (k : A → M B) :
  outcome (bind m k)
  = match outcome m with Ok a => outcome (k a) | Raise e => Raise e end.
Proof.
  unfold bind. destruct m as [t [a|e]]; simpl; [|done]. by destruct (k a).
Qed.

Lemma bind_Ok {A B} (m : M A) (k : A → M B) t b :
  bind m k = (t, Ok b) →
  ∃ t1 a t2, m = (t1, Ok a) ∧ k a = (t2, Ok b) ∧ t = t1 ++ t2.
Proof.
  unfold bind. destruct m as [t1 [a|e]]; simpl; [|done].
  destruct (k a) as [t2 r] eqn:Hk. intros [= <- ->]. by exists t1, a, t2.
Qed.

Lemma bind_ext {A B} (m : M A) (k k' : A → M B) :
  (∀ a, k a = k' a) → bind m k = bind m k'.
Proof.
  intros Hk. unfold bind. destruct m as [t [a|e]]; [|done]. by rewrite Hk.
Qed.

Lemma M_eta {A} (m : M A) : m = (events m, outcome m).
Proof. by destruct m. Qed.

Lemma bind_pair_Ok {A B} t (a : A) (k : A → M B) :
  bind (t, Ok a) k = (t ++ events (k a), outcome (k a)).
Proof. unfold bind. by destruct (k a). Qed.

Lemma bind_pair_Raise {A B} t e (k : A → M B) :
  bind (t, Raise e) k = (t, Raise e).
Proof. done. Qed.

Lemma bind_ret_l {A B} (a : A) (k : A → M B) : bind (mret a) k = k a.
Proof. unfold bind. simpl. by destruct (k a). Qed.

(** ** Text *)

Lemma str_app_cons c (a b : string) : String c a +:+ b = String c (a +:+ b).
Proof. reflexivity. Qed.

Lemma str_app_assoc (a b c : string) : (a +:+ b) +:+ c = a +:+ (b +:+ c).
Proof.
  induction a as [|x a IH]; [done|]. by rewrite !str_app_cons, IH.
Qed.

Lemma str_app_nil_r (a : string) : a +:+ "" = a.
Proof. induction a as [|x a IH]; [done|]. by rewrite str_app_cons, IH. Qed.

(** [word[:len(text)] == text] says that [text] is a prefix of [word]. *)
Lemma slice_to_prefix text word :
  slice_to (String.length text) word = text ↔ is_prefix text word.
Proof.
  unfold slice_to, is_prefix. revert word.
  induction text as [|c text IH]; intros word; simpl.
  - split; [intros _; by exists word|intros _; by destruct word].
  - destruct word as [|c' word]; simpl.
    + split; [done|intros [rest ?]; done].
    + split.
      * intros [= -> Hs]. apply IH in Hs as [rest ->]. by exists rest.
      * intros [rest [= -> ->]]. f_equal. apply IH. by exists rest.
Qed.

Lemma is_word_app a b : is_word (a +:+ b) = is_word a && is_word b.
Proof.
  induction a as [|c a IH]; [done|].
  rewrite str_app_cons. simpl. by rewrite IH, andb_assoc.
Qed.

Lemma chain_chars_app a b : chain_chars (a +:+ b) = chain_chars a && chain_chars b.
Proof.
  induction a as [|c a IH]; [done|].
  rewrite str_app_cons. simpl. by rewrite IH, andb_assoc.
Qed.

Lemma is_word_chain_chars w : is_word w = true → chain_chars w = true.
Proof.
  induction w as [|c w IH]; [done|]. simpl.
  intros [-> ?]%andb_prop. simpl. auto.
Qed.

Lemma decoration_head c s :
  String c s ∈ decorations → is_word_char c = false.
Proof.
  unfold decorations. rewrite !elem_of_cons, elem_of_nil.
  intros [H|[H|[H|[H|[]]]]]; by injection H as -> _.
Qed.

(** Removing the decoration of a decorated name gives the name back. *)
Lemma undecorate_decorated base cand :
  is_word base = true → decorated base cand → undecorate cand = base.
Proof.
  intros Hw Hd.
  assert (∃ d, cand = base +:+ d ∧ (d = "" ∨ d ∈ decorations))
    as (d & -> & Hdeco).
  { unfold decorations.
    destruct Hd as [->|[->|[->|[->| ->]]]].
    - exists "". by rewrite str_app_nil_r; auto.
    - exists " ". split; [done|]. right. rewrite !elem_of_cons. auto.
    - exists ":". split; [done|]. right. rewrite !elem_of_cons. auto.
    - exists "(". split; [done|]. right. rewrite !elem_of_cons. auto.
    - exists "()". split; [done|]. right. rewrite !elem_of_cons. auto. }
  clear Hd. induction base as [|c base IH].
  - change ("" +:+ d) with d. destruct Hdeco as [->|Hdeco]; [done|].
    destruct d as [|c d]; [done|]. simpl. by rewrite bool_decide_eq_true_2.
  - simpl in Hw. apply andb_prop in Hw as [Hc Hw].
    rewrite str_app_cons. simpl. rewrite bool_decide_eq_false_2, IH; [done..|].
    intros Hin%decoration_head. congruence.
Qed.

Lemma postfixed_decorated base cand : postfixed base cand → decorated base cand.
Proof. unfold postfixed, decorated. tauto. Qed.

Lemma keyword_word_decorated w : decorated w (keyword_word w).
Proof.
  unfold keyword_word, decorated. repeat case_bool_decide; simpl; auto.
Qed.

(** ** Association lists *)

Lemma assoc_cons_ne {A} k k' (v : A) d :
  k' ≠ k → assoc k ((k', v) :: d) = assoc k d.
Proof. intros Hne. simpl. by destruct (String.eqb_spec k' k). Qed.

Lemma assoc_cons_eq {A} k (v : A) d : assoc k ((k, v) :: d) = Some v.
Proof. simpl. by rewrite String.eqb_refl. Qed.

Lemma assoc_Some_key {A} k (v : A) d : assoc k d = Some v → k ∈ d.*1.
Proof.
  induction d as [|[k' x] d IH]; [done|]. simpl.
  destruct (String.eqb_spec k' k) as [->|]; [left|right; auto].
Qed.

Lemma selected_elem text ws w :
  w ∈ selected text ws ↔ is_prefix text w ∧ w ∈ ws.
Proof. unfold selected. by rewrite list_elem_of_filter, slice_to_prefix. Qed.

Lemma Forall2_fmap_eq {A B} (f : B → A) (R : A → B → Prop) l k :
  Forall2 R l k → (∀ a b, a ∈ l → R a b → f b = a) → f <$> k = l.
Proof.
  induction 1 as [|a b l k HR _ IH]; intros Hf; [done|]. simpl. f_equal.
  - apply Hf; [left|done].
  - apply IH. intros ????. apply Hf; [by right|done].
Qed.

(** ** The filter chain *)

Section FiltererFacts.
Context (rt : runtime).

(** How the scan of [_add_filter] ends: on the filter itself, at the end
    of a chain that holds no larger priority, or on the first filter of a
    larger priority. *)
Lemma _add_filter_scan_spec filters filter i :
  match _add_filter_scan rt i filters filter with
  | AlreadyRegistered => filter ∈ filters
  | Position pos =>
      (pos = (-1) ∧ (filter ∉ filters)
       ∧ Forall (λ g, prio rt g ≤ prio rt filter) filters)
      ∨ (∃ l1 g l2, filters = l1 ++ (g :: l2)
           ∧ pos = i + Z.of_nat (length l1)
           ∧ (filter ∉ l1) ∧ Forall (λ g, prio rt g ≤ prio rt filter) l1
           ∧ prio rt filter < prio rt g)
  end.
Proof.
  revert i. induction filters as [|f rest IH]; intros i; simpl.
  - left. split_and!; [done| |constructor]. apply not_elem_of_nil.
  - case_bool_decide as Heq.
    { subst. left. }
    destruct (Z.ltb_spec (priority (heap rt filter)) (priority (heap rt f)))
      as [Hlt|Hge].
    { right. exists [], f, rest. simpl. split_and!; auto; try lia.
      apply not_elem_of_nil. }
    specialize (IH (i + 1)).
    destruct (_add_filter_scan rt (i + 1) rest filter) as [|pos].
    + by right.
    + destruct IH as [(-> & Hnin & Hall)
                     |(l1 & g & l2 & -> & -> & Hnin & Hall & Hlt)].
      * left. split_and!; [done| |].
        { rewrite elem_of_cons. intros [?|?]; congruence. }
        apply Forall_cons; split; [unfold prio; lia|done].
      * right. exists (f :: l1), g, l2. simpl.
        split_and!; [done|lia| | |done].
        { rewrite elem_of_cons. intros [?|?]; congruence. }
        apply Forall_cons; split; [unfold prio; lia|done].
Qed.

(** [_add_filter] either finds the filter and changes nothing, or puts it
    after every filter of at most its priority that comes before the first
    filter of a larger priority. *)
Lemma _add_filter_cases filters filter :
  (_add_filter rt filters filter = (filters, false) ∧ filter ∈ filters)
  ∨ (∃ l1 l2, filters = l1 ++ l2
       ∧ _add_filter rt filters filter = (l1 ++ filter :: l2, true)
       ∧ (filter ∉ l1) ∧ Forall (λ g, prio rt g ≤ prio rt filter) l1
       ∧ match l2 with
         | [] => True
         | g :: _ => prio rt filter < prio rt g
         end).
Proof.
  unfold _add_filter.
  pose proof (_add_filter_scan_spec filters filter 0) as Hscan.
  destruct (_add_filter_scan rt 0 filters filter) as [|pos]; [by left|].
  right. destruct Hscan as [(-> & Hnin & Hall)
                           |(l1 & g & l2 & -> & -> & Hnin & Hall & Hlt)].
  - exists filters, []. rewrite app_nil_r. by split_and!.
  - exists l1, (g :: l2). split_and!; try done.
    destruct (Z.eqb_spec (0 + Z.of_nat (length l1)) (-1)) as [?|_]; [lia|].
    unfold list_insert_at.
    replace (Z.to_nat (0 + Z.of_nat (length l1))) with (length l1) by lia.
    by rewrite take_app_length, drop_app_length.
Qed.

Lemma sorted_above l g p :
  StronglySorted (prio_le rt) (g :: l) → p < prio rt g →
  Forall (λ h, p < prio rt h) (g :: l).
Proof.
  intros [Hall _]%StronglySorted_cons Hlt. apply Forall_cons; split; [done|].
  eapply Forall_impl; [exact Hall|]. unfold prio_le. simpl. intros; lia.
Qed.

Lemma _add_filter_sorted filters filter :
  StronglySorted (prio_le rt) filters →
  StronglySorted (prio_le rt) (_add_filter rt filters filter).1.
Proof.
  intros Hs.
  destruct (_add_filter_cases filters filter)
    as [[-> _]|(l1 & l2 & -> & -> & _ & Hall & Hl2)]; [done|]. simpl.
  apply StronglySorted_app in Hs as (Hcross & Hs1 & Hs2).
  apply StronglySorted_app. split_and!; [|done|].
  - intros x1 x2 Hx1. rewrite elem_of_cons. intros [->|Hx2]; [|by apply Hcross].
    rewrite Forall_forall in Hall. by apply Hall.
  - apply StronglySorted_cons. split; [|done].
    destruct l2 as [|g l2]; [constructor|].
    eapply Forall_impl; [apply (sorted_above _ _ _ Hs2 Hl2)|].
    unfold prio_le. simpl. intros; lia.
Qed.

(** In a sorted chain the scan cannot miss a registered filter. *)
Lemma _add_filter_registered filters filter :
  StronglySorted (prio_le rt) filters → filter ∈ filters →
  _add_filter rt filters filter = (filters, false).
Proof.
  intros Hs Hin.
  destruct (_add_filter_cases filters filter)
    as [[-> _]|(l1 & l2 & -> & _ & Hnin & _ & Hl2)]; [done|]. exfalso.
  apply elem_of_app in Hin as [?|Hin]; [done|].
  apply StronglySorted_app in Hs as (_ & _ & Hs2).
  destruct l2 as [|g l2]; [by apply elem_of_nil in Hin|].
  pose proof (sorted_above _ _ _ Hs2 Hl2) as Habove.
  rewrite Forall_forall in Habove. specialize (Habove _ Hin).
  simpl in Habove. lia.
Qed.

Lemma with_priority_app p l1 l2 :
  with_priority rt p (l1 ++ l2)
  = with_priority rt p l1 ++ with_priority rt p l2.
Proof. unfold with_priority. by rewrite filter_app. Qed.

Lemma with_priority_cons p f l :
  with_priority rt p (f :: l)
  = if decide (prio rt f = p) then f :: with_priority rt p l
    else with_priority rt p l.
Proof. unfold with_priority. by rewrite filter_cons. Qed.

Lemma with_priority_above p l :
  Forall (λ h, p < prio rt h) l → with_priority rt p l = [].
Proof.
  unfold with_priority. induction 1 as [|h l Hh _ IH]; [done|].
  rewrite filter_cons_False; [done|lia].
Qed.

(** A new filter goes behind the filters of its priority. *)
Lemma _add_filter_new filters filter :
  StronglySorted (prio_le rt) filters → filter ∉ filters →
  (_add_filter rt filters filter).2 = true
  ∧ (∀ x, x ∈ (_add_filter rt filters filter).1 ↔ x = filter ∨ x ∈ filters)
  ∧ ∀ p, with_priority rt p (_add_filter rt filters filter).1
         = with_priority rt p (filters ++ [filter]).
Proof.
  intros Hs Hnin.
  destruct (_add_filter_cases filters filter)
    as [[_ ?]|(l1 & l2 & -> & -> & _ & _ & Hl2)]; [done|].
  simpl. split_and!; [done| |].
  - intros x. rewrite !elem_of_app, elem_of_cons. tauto.
  - intros p.
    rewrite !with_priority_app, !with_priority_cons, <-(assoc_L (++)).
    f_equal. apply StronglySorted_app in Hs as (_ & _ & Hs2).
    change (with_priority rt p []) with (@nil fref).
    case_decide as Hp; [|by rewrite app_nil_r].
    destruct l2 as [|g l2]; [done|].
    rewrite (with_priority_above p (g :: l2)); [done|].
    subst p. by apply sorted_above.
Qed.

Lemma add_all_snoc chain fs f :
  add_all rt chain (fs ++ [f]) = (_add_filter rt (add_all rt chain fs) f).1.
Proof. unfold add_all. by rewrite foldl_snoc. Qed.

Lemma first_registrations_snoc fs f :
  first_registrations (fs ++ [f])
  = if bool_decide (f ∈ first_registrations fs) then first_registrations fs
    else first_registrations fs ++ [f].
Proof. unfold first_registrations. by rewrite foldl_snoc. Qed.

(** What every chain built by registrations satisfies. *)
Lemma add_all_invariant fs :
  StronglySorted (prio_le rt) (add_all rt [] fs)
  ∧ (∀ x, x ∈ add_all rt [] fs ↔ x ∈ first_registrations fs)
  ∧ ∀ p, with_priority rt p (add_all rt [] fs)
         = with_priority rt p (first_registrations fs).
Proof.
  induction fs as [|f fs (Hs & Hel & Hp)] using rev_ind.
  { split_and!; [constructor|done|done]. }
  rewrite add_all_snoc, first_registrations_snoc.
  case_bool_decide as Hin.
  - apply Hel in Hin. rewrite (_add_filter_registered _ _ Hs Hin).
    by split_and!.
  - assert (f ∉ add_all rt [] fs) as Hnin by (by rewrite Hel).
    destruct (_add_filter_new _ _ Hs Hnin) as (_ & Hel' & Hp').
    split_and!.
    + by apply _add_filter_sorted.
    + intros x. rewrite Hel', elem_of_app, list_elem_of_singleton, Hel. tauto.
    + intros p. by rewrite Hp', !with_priority_app, Hp.
Qed.

(** The order of the chain in the example of the priorities
    50, 10, 10, 500, 500. *)
Lemma add_all_example f1 f2 f3 f4 f5 :
  NoDup [f1; f2; f3; f4; f5] →
  prio rt f1 = 50 → prio rt f2 = 10 → prio rt f3 = 10 →
  prio rt f4 = default_priority → prio rt f5 = default_priority →
  add_all rt [] [f1; f2; f3; f4; f5] = [f2; f3; f1; f4; f5].
Proof.
  unfold prio, default_priority. intros Hnd H1 H2 H3 H4 H5.
  repeat match goal with
         | H : NoDup (_ :: _) |- _ => apply NoDup_cons in H as [? ?]
         end.
  repeat match goal with
         | H : _ ∉ _ :: _ |- _ => apply not_elem_of_cons in H as [? ?]
         end.
  unfold add_all, _add_filter. simpl.
  repeat first
    [ rewrite bool_decide_eq_false_2 by congruence
    | rewrite H1 | rewrite H2 | rewrite H3 | rewrite H4 | rewrite H5
    | progress simpl ].
  reflexivity.
Qed.

(** C7. Whatever filters are registered, in whatever order, starting from
    the empty chain of [Filterer.__init__]: the chain is sorted by
    non-decreasing priority; the filters of one priority stand in the order
    of their first registration; the chain holds each registered filter
    once; registering a filter that the chain holds returns [False] and
    leaves the chain as it is; and filters of the priorities
    50, 10, 10, 500, 500 registered in this order end up in the order
    10, 10, 50, 500, 500. *)
Theorem add_filter_keeps_chain_sorted_and_stable (fs : list fref) :
  StronglySorted (prio_le rt) (add_all rt [] fs)
  ∧ (∀ p, with_priority rt p (add_all rt [] fs)
          = with_priority rt p (first_registrations fs))
  ∧ NoDup (add_all rt [] fs)
  ∧ (∀ f, f ∈ add_all rt [] fs ↔ f ∈ fs)
  ∧ (∀ f, f ∈ add_all rt [] fs →
          _add_filter rt (add_all rt [] fs) f = (add_all rt [] fs, false))
  ∧ (∀ f, f ∉ add_all rt [] fs →
          (_add_filter rt (add_all rt [] fs) f).2 = true)
  ∧ (∀ f1 f2 f3 f4 f5,
       NoDup [f1; f2; f3; f4; f5] →
       prio rt f1 = 50 → prio rt f2 = 10 → prio rt f3 = 10 →
       prio rt f4 = default_priority → prio rt f5 = default_priority →
       add_all rt [] [f1; f2; f3; f4; f5] = [f2; f3; f1; f4; f5]).
Proof.
  destruct (add_all_invariant fs) as (Hs & Hel & Hp).
  split_and!; [done|done| | | | |apply add_all_example].
  - clear Hs Hel Hp. induction fs as [|f fs IH] using rev_ind; [constructor|].
    rewrite add_all_snoc.
    destruct (add_all_invariant fs) as (Hs & _ & _).
    destruct (decide (f ∈ add_all rt [] fs)) as [Hin|Hnin].
    + by rewrite (_add_filter_registered _ _ Hs Hin).
    + destruct (_add_filter_cases (add_all rt [] fs) f)
        as [[_ ?]|(l1 & l2 & Heq & -> & _ & _ & _)]; [done|]. simpl.
      rewrite Heq in IH, Hnin. apply NoDup_app in IH as (H1 & H12 & H2).
      apply NoDup_app. split_and!; [done| |].
      * intros x Hx [->|Hx2]%elem_of_cons; [|by eapply H12].
        apply Hnin, elem_of_app. by left.
      * apply NoDup_cons. split; [|done].
        intros ?. apply Hnin, elem_of_app. by right.
  - intros f. rewrite Hel. clear.
    induction fs as [|g fs IH] using rev_ind; [done|].
    rewrite first_registrations_snoc, elem_of_app, list_elem_of_singleton, <-IH.
    case_bool_decide; [|rewrite elem_of_app, list_elem_of_singleton; tauto].
    split; [tauto|]. intros [?| ->]; done.
  - intros f Hin. by apply _add_filter_registered.
  - intros f Hnin. by apply _add_filter_new.
Qed.
End FiltererFacts.

(** ** The pattern *)

Lemma match_scan_sound expr cur s e a :
  from_option dotted_chain True expr → is_word cur = true →
  match_scan expr cur s = Some (e, a) →
  dotted_chain e ∧ is_word a = true
  ∧ ∃ rest, scanned expr cur +:+ s = e +:+ "." +:+ a +:+ rest
            ∧ stops_match a rest.
Proof.
  revert expr cur. induction s as [|c s IH]; intros expr cur Hexpr Hcur; simpl.
  - destruct expr as [e'|]; [|done]. intros [= <- <-]. split_and!; [done..|].
    exists "". simpl. by rewrite !str_app_nil_r.
  - destruct (is_word_char c) eqn:Hc.
    { intros Hscan.
      apply IH in Hscan as (He & Ha & rest & Hrest & Hstop); [|done|].
      - split_and!; [done..|]. exists rest. split; [|done]. rewrite <-Hrest.
        destruct expr; simpl; by rewrite !str_app_assoc.
      - by rewrite is_word_app, Hcur; simpl; rewrite Hc. }
    destruct (Ascii.eqb_spec c ".") as [->|Hdot]; simpl.
    + destruct (str_truthy cur) eqn:Hne.
      * intros Hscan.
        apply IH in Hscan as (He & Ha & rest & Hrest & Hstop); [| |done].
        -- split_and!; [done..|]. exists rest. split; [|done].
           rewrite <-Hrest. simpl.
           destruct expr; simpl; by rewrite ?str_app_assoc.
        -- simpl. destruct expr as [e'|]; simpl.
           ++ apply chain_dot; [done|]. unfold is_name. by rewrite Hne, Hcur.
           ++ apply chain_name. unfold is_name. by rewrite Hne, Hcur.
      * destruct expr as [e'|]; [|done]. intros [= <- <-]. split_and!; [done..|].
        exists (String "." s). split; [simpl; by rewrite !str_app_assoc|].
        split; [done|]. intros _. by destruct cur.
    + destruct expr as [e'|]; [|done]. intros [= <- <-]. split_and!; [done..|].
      exists (String c s). split; [simpl; by rewrite !str_app_assoc|].
      split; [done|]. intros ->. done.
Qed.

(** A match gives a chain of names, a dot and a run of word characters at
    the start of the text, the longest there is; what follows them is not
    looked at any further. *)
Lemma re_match_sound text e a :
  re_match text = Some (e, a) →
  dotted_chain e ∧ is_word a = true
  ∧ ∃ rest, text = e +:+ "." +:+ a +:+ rest ∧ stops_match a rest.
Proof. intros H. by apply (match_scan_sound None "") in H. Qed.

Lemma match_scan_some e cur s : is_Some (match_scan (Some e) cur s).
Proof.
  revert e cur. induction s as [|c s IH]; intros e cur; simpl; [by eexists|].
  destruct (is_word_char c); [done|].
  destruct (Ascii.eqb c "." && str_truthy cur); [done|by eexists].
Qed.

Lemma match_scan_word expr cur w s :
  is_word w = true →
  match_scan expr cur (w +:+ s) = match_scan expr (cur +:+ w) s.
Proof.
  revert cur. induction w as [|c w IH]; intros cur Hw.
  { by rewrite str_app_nil_r. }
  simpl in Hw. apply andb_prop in Hw as [Hc Hw].
  rewrite str_app_cons. simpl. rewrite Hc, IH by done.
  by rewrite str_app_assoc.
Qed.

Lemma dotted_chain_first chain s :
  dotted_chain chain →
  ∃ w0 tail, is_name w0 = true ∧ chain +:+ "." +:+ s = w0 +:+ "." +:+ tail.
Proof.
  intros Hchain. revert s.
  induction Hchain as [w Hw|e w _ IH Hw]; intros s; [by exists w, s|].
  destruct (IH (w +:+ "." +:+ s)) as (w0 & tail & Hw0 & Heq).
  exists w0, tail. split; [done|]. by rewrite <-Heq, !str_app_assoc.
Qed.

Lemma re_match_complete text : prefix_shape text → is_Some (re_match text).
Proof.
  intros (chain & partial & rest & -> & Hchain & _).
  destruct (dotted_chain_first chain (partial +:+ rest) Hchain)
    as (w0 & tail & Hw0 & ->).
  apply andb_prop in Hw0 as [Hne Hw0].
  unfold re_match. rewrite match_scan_word by done. simpl.
  change ("" +:+ w0) with w0. rewrite Hne. apply match_scan_some.
Qed.

(** The pattern matches exactly the texts that start with its shape. *)
Lemma re_match_shape text : is_Some (re_match text) ↔ prefix_shape text.
Proof.
  split; [|apply re_match_complete].
  intros [[e a] (He & Ha & rest & -> & _)%re_match_sound].
  by exists e, a, rest.
Qed.

Lemma re_match_no_shape text : ¬ prefix_shape text → re_match text = None.
Proof.
  rewrite <-re_match_shape. destruct (re_match text); [|done].
  intros []. by eexists.
Qed.

Lemma dotted_chain_chars e : dotted_chain e → chain_chars e = true.
Proof.
  induction 1 as [w Hw|e w _ IH Hw].
  - apply andb_prop in Hw as [_ Hw]. by apply is_word_chain_chars.
  - apply andb_prop in Hw as [_ Hw].
    by rewrite !chain_chars_app, IH, (is_word_chain_chars w).
Qed.

(** A text that is a match from start to end has only word characters and
    dots. *)
Lemma entire_shape_chars text : entire_shape text → chain_chars text = true.
Proof.
  intros (chain & partial & -> & Hchain & Hw).
  by rewrite !chain_chars_app, (dotted_chain_chars chain),
    (is_word_chain_chars partial).
Qed.

Lemma re_match_contains_dot text e a :
  re_match text = Some (e, a) → contains_char "." text = true.
Proof.
  intros (_ & _ & rest & -> & _)%re_match_sound.
  induction e as [|c e IH]; [done|]. rewrite str_app_cons. simpl.
  by destruct (Ascii.eqb c ".").
Qed.

(** ** [global_matches] *)

Lemma _callable_postfix_Ok val word t c :
  _callable_postfix val word = (t, Ok c) → t = [] ∧ postfixed word c.
Proof.
  unfold _callable_postfix, postfixed.
  destruct (callable val); [|intros [= <- <-]; auto].
  destruct (signature val) as [n|e].
  - case_bool_decide; intros [= <- <-]; split; auto.
    right; right. by rewrite str_app_assoc.
  - destruct (issubclass e ValueError); [|done]. intros [= <- <-]; auto.
Qed.

Lemma _callable_postfix_events val word :
  events (_callable_postfix val word) = [].
Proof.
  unfold _callable_postfix. destruct (callable val); [|done].
  destruct (signature val) as [n|e]; [by case_bool_decide|].
  by destruct (issubclass e ValueError).
Qed.

Lemma items_Ok nspace t its :
  items nspace = (t, Ok its) →
  t = [] ∧ (nspace = ScopeDict its ∨ nspace = ScopeMapping its).
Proof. destruct nspace; intros [= <- <-]; auto. Qed.

(** The keyword loop adds the decorated keywords that start with [text], in
    the order of the list, and marks them as seen. *)
Lemma keyword_loop_eq text ws m s :
  keyword_loop text ws m s
  = (m ++ (keyword_word <$> selected text ws),
     list_to_set (selected text ws) ∪ s).
Proof.
  revert m s. unfold selected.
  induction ws as [|w ws IH]; intros m s; simpl.
  { rewrite app_nil_r. f_equal. set_solver. }
  rewrite filter_cons. case_bool_decide as Hsel.
  - rewrite decide_True by done. rewrite IH, <-(assoc_L (++)). simpl.
    f_equal. set_solver.
  - rewrite decide_False by done. apply IH.
Qed.

Section GlobalFacts.
Context (rt : runtime).

Lemma _filter_events filters tgt w v text opts :
  Forall (λ ev, ∃ f, ev = EvFilter f tgt w v text opts)
         (events (_filter rt filters tgt w v text opts)).
Proof.
  induction filters as [|f filters IH]; simpl; [constructor|].
  rewrite bind_events. apply Forall_app. split.
  - unfold call_filter. rewrite bind_events. simpl.
    apply Forall_cons. split; [by eexists|]. unfold lift. simpl. constructor.
  - destruct (outcome (call_filter rt f tgt w v text opts)) as [[]|]; simpl;
      [done|constructor..].
Qed.

Lemma _filter_head_raises f fs tgt w v text opts e :
  filter (heap rt f) tgt w v text opts = Raise e →
  outcome (_filter rt (f :: fs) tgt w v text opts) = Raise e.
Proof.
  intros Hf. simpl. rewrite bind_outcome. unfold call_filter.
  rewrite bind_outcome. simpl. by rewrite Hf.
Qed.

(** One pass over the items of a namespace: the candidates it adds come
    each from a different key that was not seen, starts with [text] and
    was accepted by the filter chain at its first entry; every key that
    starts with [text] is seen afterwards, accepted or not. *)
Lemma namespace_loop_spec self text nspace its m s t m' s' :
  namespace_loop rt self text nspace its m s = (t, Ok (m', s')) →
  ∃ bases cands,
    m' = m ++ cands ∧ Forall2 postfixed bases cands ∧ NoDup bases
    ∧ (∀ b, b ∈ bases → (b ∉ s) ∧ is_prefix text b
         ∧ ∃ v, assoc b its = Some v
             ∧ outcome (filter_namespace rt self nspace b v text no_options)
               = Ok true)
    ∧ s ⊆ s'
    ∧ (∀ x, x ∈ s' → x ∈ s ∨ x ∈ its.*1)
    ∧ (∀ b, b ∈ its.*1 → is_prefix text b → b ∈ s').
Proof.
  revert m s t. induction its as [|[word value] its IH]; intros m s t Hloop;
    simpl in Hloop; revert Hloop.
  { intros [= <- <- <-]. exists [], []. rewrite app_nil_r.
    split_and!; [done|constructor|constructor|set_solver..]. }
  destruct (bool_decide (slice_to (String.length text) word = text)
            && negb (bool_decide (word ∈ s))) eqn:Hsel.
  - apply andb_prop in Hsel as [Hpre%bool_decide_eq_true_1%slice_to_prefix
                                 Hnin%negb_true_iff%bool_decide_eq_false_1].
    intros (t1 & keep & t2 & Hf & Hrest & ->)%bind_Ok.
    destruct keep.
    + apply bind_Ok in Hrest as (t3 & c & t4 & Hc & Hrest & ->).
      apply _callable_postfix_Ok in Hc as [-> Hc].
      apply IH in Hrest
        as (bases & cands & -> & Hdec & Hnd & Hb & Hsub & Hs' & Hkeys).
      exists (word :: bases), (c :: cands). rewrite <-(assoc_L (++)).
      split_and!; [done|by constructor| | |set_solver| |].
      * apply NoDup_cons. split; [|done]. intros Hin. apply Hb in Hin.
        set_solver.
      * intros b [->|Hin]%elem_of_cons.
        { split_and!; [done..|]. exists value. by rewrite assoc_cons_eq, Hf. }
        destruct (Hb _ Hin) as (Hbs & Hbp & v & Hv & Hout).
        split_and!; [set_solver|done|]. exists v. split; [|done].
        rewrite assoc_cons_ne; [done|set_solver].
      * intros x Hx. apply Hs' in Hx. set_solver.
      * intros b [->|Hin]%elem_of_cons ?; [set_solver|by apply Hkeys].
    + apply IH in Hrest
        as (bases & cands & -> & Hdec & Hnd & Hb & Hsub & Hs' & Hkeys).
      exists bases, cands.
      split_and!; [done|done|done| |set_solver| |].
      * intros b Hin. destruct (Hb _ Hin) as (Hbs & Hbp & v & Hv & Hout).
        split_and!; [set_solver|done|]. exists v. split; [|done].
        rewrite assoc_cons_ne; [done|set_solver].
      * intros x Hx. apply Hs' in Hx. set_solver.
      * intros b [->|Hin]%elem_of_cons ?; [set_solver|by apply Hkeys].
  - intros Hrest.
    apply IH in Hrest
      as (bases & cands & -> & Hdec & Hnd & Hb & Hsub & Hs' & Hkeys).
    exists bases, cands. split_and!; [done..| | | |]; try done.
    * intros b Hin. destruct (Hb _ Hin) as (Hbs & Hbp & v & Hv & Hout).
      split_and!; [done..|]. exists v. split; [|done].
      rewrite assoc_cons_ne; [done|]. intros ->.
      apply andb_false_iff in Hsel as [Hsel|Hsel].
      -- apply bool_decide_eq_false_1 in Hsel.
         by rewrite slice_to_prefix in Hsel.
      -- apply negb_false_iff, bool_decide_eq_true_1 in Hsel. done.
    * intros x Hx. apply Hs' in Hx. set_solver.
    * intros b [->|Hin]%elem_of_cons Hpre; [|by apply Hkeys].
      apply andb_false_iff in Hsel as [Hsel|Hsel].
      -- apply bool_decide_eq_false_1 in Hsel.
         by rewrite slice_to_prefix in Hsel.
      -- apply negb_false_iff, bool_decide_eq_true_1 in Hsel. set_solver.
Qed.

(** The list [global_matches] returns: the keyword candidates, then the
    candidates of the namespace, then those of the built-ins. *)
Lemma global_matches_spec self text t ms :
  global_matches rt self text = (t, Ok ms) →
  ∃ ns d bases1 cands1 bases2 cands2,
    namespace self = Some ns
    ∧ (ns = ScopeDict d ∨ ns = ScopeMapping d)
    ∧ ms = keyword_matches rt text ++ cands1 ++ cands2
    ∧ Forall2 postfixed bases1 cands1 ∧ Forall2 postfixed bases2 cands2
    ∧ NoDup (bases1 ++ bases2)
    ∧ (∀ b, b ∈ bases1 →
         (b ∉ selected text (keywords rt)) ∧ is_prefix text b
         ∧ ∃ v, assoc b d = Some v
             ∧ outcome (filter_namespace rt self ns b v text no_options)
               = Ok true)
    ∧ (∀ b, b ∈ bases2 →
         (b ∉ selected text (keywords rt)) ∧ (b ∉ d.*1) ∧ is_prefix text b
         ∧ ∃ v, assoc b (builtins_dict rt) = Some v
             ∧ outcome (filter_namespace rt self
                          (ScopeDict (builtins_dict rt)) b v text no_options)
               = Ok true).
Proof.
  unfold global_matches. rewrite keyword_loop_eq. simpl.
  fold (keywords rt).
  intros (t1 & ns & t2 & Hns & Hrest & ->)%bind_Ok.
  unfold get_namespace in Hns.
  destruct (namespace self) as [ns'|] eqn:Hself; [|done].
  injection Hns as <- <-.
  apply bind_Ok in Hrest as (t3 & [ms' s'] & t4 & Hloops & Hret & ->).
  injection Hret as <- <-. simpl in Hloops.
  apply bind_Ok in Hloops as (t5 & its & t6 & Hits & Hloops & ->).
  apply items_Ok in Hits as [-> Hd].
  apply bind_Ok in Hloops as (t7 & [m1 s1] & t8 & H1 & Hloops & ->).
  apply bind_Ok in Hloops as (t9 & its2 & t10 & [= <- <-] & Hloops & ->).
  apply bind_Ok in Hloops as (t11 & [m2 s2] & t12 & H2 & [= <- <- <-] & ->).
  simpl in *.
  apply namespace_loop_spec in H1
    as (bases1 & cands1 & -> & Hdec1 & Hnd1 & Hb1 & Hsub1 & Hs1 & Hkeys1).
  apply namespace_loop_spec in H2
    as (bases2 & cands2 & -> & Hdec2 & Hnd2 & Hb2 & Hsub2 & Hs2 & Hkeys2).
  exists ns', its, bases1, cands1, bases2, cands2.
  split_and!; [done|done|by rewrite <-(assoc_L (++))|done|done| | |].
  - apply NoDup_app. split_and!; [done| |done].
    intros b Hin1 Hin2. apply Hb2 in Hin2 as (Hnin & _).
    apply Hnin. apply Hkeys1; [|by apply Hb1].
    destruct (Hb1 _ Hin1) as (_ & _ & v & Hv & _).
    by eapply assoc_Some_key.
  - intros b Hin. destruct (Hb1 _ Hin) as (Hnin & Hpre & Hv).
    split_and!; [|done..]. intros Hsel. apply Hnin.
    apply elem_of_union_l. by apply elem_of_list_to_set.
  - intros b Hin. destruct (Hb2 _ Hin) as (Hnin & Hpre & Hv).
    split_and!; [| |done..].
    + intros Hsel. apply Hnin, Hsub1.
      apply elem_of_union_l. by apply elem_of_list_to_set.
    + intros Hk. apply Hnin. by apply Hkeys1.
Qed.

Lemma global_matches_bases self text t ms :
  global_matches rt self text = (t, Ok ms) →
  ∃ ns d bases1 bases2,
    namespace self = Some ns ∧ (ns = ScopeDict d ∨ ns = ScopeMapping d)
    ∧ Forall2 decorated (selected text (keywords rt) ++ bases1 ++ bases2) ms
    ∧ NoDup (bases1 ++ bases2)
    ∧ (∀ b, b ∈ bases1 →
         (b ∉ selected text (keywords rt)) ∧ is_prefix text b
         ∧ ∃ v, assoc b d = Some v
             ∧ outcome (filter_namespace rt self ns b v text no_options)
               = Ok true)
    ∧ (∀ b, b ∈ bases2 →
         (b ∉ selected text (keywords rt)) ∧ (b ∉ d.*1) ∧ is_prefix text b
         ∧ b ∈ (builtins_dict rt).*1).
Proof.
  intros (ns & d & bases1 & cands1 & bases2 & cands2 & Hns & Hd & -> & H1 & H2
          & Hnd & Hb1 & Hb2)%global_matches_spec.
  exists ns, d, bases1, bases2. split_and!; [done|done| |done|done|].
  - unfold keyword_matches. repeat apply Forall2_app.
    + apply Forall2_fmap_r, Forall_Forall2_diag, Forall_forall.
      intros ??. apply keyword_word_decorated.
    + eapply Forall2_impl; [done|]. apply postfixed_decorated.
    + eapply Forall2_impl; [done|]. apply postfixed_decorated.
  - intros b Hin. destruct (Hb2 _ Hin) as (? & ? & ? & v & Hv & _).
    split_and!; [done..|]. by eapply assoc_Some_key.
Qed.

(** C8, as the code has it. Every candidate [global_matches] returns is a
    name that starts with [text], with or without one of the decorations
    [" "], [":"], ["("] and ["()"], and no two candidates come from the
    same name; the names are keywords, keys of the namespace or keys of
    the built-ins. When the names are made of word characters, the name of
    a candidate is the candidate with its trailing decoration removed:
    these undecorated forms start with [text] and are pairwise different.
    For a key that ends like a decoration neither needs to hold. The
    keyword list is required to hold each keyword once. *)
Theorem global_matches_prefix_distinct self text ms :
  NoDup (keywords rt) →
  outcome (global_matches rt self text) = Ok ms →
  ∃ bases,
    NoDup bases
    ∧ Forall2 (λ base cand, decorated base cand ∧ is_prefix text base)
              bases ms
    ∧ (∀ b, b ∈ bases →
         b ∈ keywords rt ∨ b ∈ scope_keys (namespace self)
         ∨ b ∈ (builtins_dict rt).*1)
    ∧ (Forall (λ b, is_word b = true) bases →
       undecorate <$> ms = bases
       ∧ Forall (λ cand, is_prefix text (undecorate cand)) ms
       ∧ NoDup (undecorate <$> ms)).
Proof.
  intros Hkw Hout.
  pose proof (M_eta (global_matches rt self text)) as Heta.
  rewrite Hout in Heta.
  apply global_matches_bases in Heta
    as (ns & d & bases1 & bases2 & Hns & Hd & Hdec & Hnd & Hb1 & Hb2).
  set (bases := selected text (keywords rt) ++ bases1 ++ bases2) in *.
  assert (NoDup bases) as Hbases.
  { unfold bases. apply NoDup_app. split_and!; [by apply NoDup_filter| |done].
    intros b Hsel [Hin|Hin]%elem_of_app; [by apply Hb1 in Hin as []|].
    by apply Hb2 in Hin as []. }
  assert (Forall (is_prefix text) bases) as Hpre.
  { apply Forall_forall. intros b. unfold bases.
    rewrite !elem_of_app. intros [Hin|[Hin|Hin]].
    - by apply selected_elem in Hin as [].
    - by apply Hb1 in Hin as (_ & ? & _).
    - by apply Hb2 in Hin as (_ & _ & ? & _). }
  exists bases. split_and!; [done| | |].
  - clear -Hdec Hpre. induction Hdec as [|b c bs cs Hbc _ IH]; [constructor|].
    apply Forall_cons in Hpre as [??]. constructor; auto.
  - intros b. unfold bases. rewrite !elem_of_app. intros [Hin|[Hin|Hin]].
    + left. by apply selected_elem in Hin as [].
    + right; left. rewrite Hns. apply Hb1 in Hin as (_ & _ & v & Hv & _).
      apply assoc_Some_key in Hv. by destruct Hd as [-> | ->].
    + right; right. by apply Hb2 in Hin as (_ & _ & _ & ?).
  - intros Hnames.
    assert (undecorate <$> ms = bases) as Heq.
    { eapply Forall2_fmap_eq; [done|]. intros b c Hin Hbc.
      apply undecorate_decorated; [|done].
      rewrite Forall_forall in Hnames. by apply Hnames. }
    split_and!; [done| |by rewrite Heq].
    rewrite <-Heq in Hpre. by rewrite Forall_fmap in Hpre.
Qed.

(** C9. A name of the active namespace that the namespace filters reject
    is marked as seen all the same, so the entry of the built-ins under the
    same name is skipped: no candidate of the returned list comes from that
    name. The names (keywords and keys) are made of word characters, so
    that a candidate determines its name, and the rejected name is not a
    keyword, for which the filters would not be asked. *)
Theorem rejected_name_not_supplied_later self text ns d w v ms :
  namespace self = Some ns → ns = ScopeDict d ∨ ns = ScopeMapping d →
  Forall (λ b, is_word b = true)
         (keywords rt ++ d.*1 ++ (builtins_dict rt).*1) →
  assoc w d = Some v →
  w ∉ keywords rt →
  outcome (filter_namespace rt self ns w v text no_options) = Ok false →
  outcome (global_matches rt self text) = Ok ms →
  Forall (λ cand, undecorate cand ≠ w) ms.
Proof.
  intros Hns Hd Hnames Hw Hkw Hrej Hout.
  pose proof (M_eta (global_matches rt self text)) as Heta.
  rewrite Hout in Heta.
  apply global_matches_bases in Heta
    as (ns' & d' & bases1 & bases2 & Hns' & Hd' & Hdec & Hnd & Hb1 & Hb2).
  assert (ns' = ns) as -> by congruence.
  assert (d' = d) as ->
    by (destruct Hd as [-> | ->], Hd' as [?|?]; congruence).
  rewrite !Forall_app, !Forall_forall in Hnames.
  destruct Hnames as (Hnkw & Hnd1 & Hnd2).
  assert (w ∉ undecorate <$> ms) as Hnin.
  { rewrite (Forall2_fmap_eq undecorate _ _ _ Hdec).
    - rewrite !elem_of_app. intros [Hin|[Hin|Hin]].
      + by apply selected_elem in Hin as [].
      + apply Hb1 in Hin as (_ & _ & v' & Hv' & Hout'). congruence.
      + apply Hb2 in Hin as (_ & Hnin & _). by apply assoc_Some_key in Hw.
    - intros b c Hin Hbc. apply undecorate_decorated; [|done].
      revert Hin. rewrite !elem_of_app. intros [Hin|[Hin|Hin]].
      + apply Hnkw. by apply selected_elem in Hin as [].
      + apply Hnd1. apply Hb1 in Hin as (_ & _ & v' & Hv' & _).
        by eapply assoc_Some_key.
      + apply Hnd2. by apply Hb2 in Hin as (_ & _ & _ & ?). }
  apply Forall_forall. intros cand Hin Heq. apply Hnin.
  rewrite <-Heq. by apply list_elem_of_fmap_2.
Qed.

Lemma namespace_loop_events self text nspace its m s :
  Forall (λ ev, ∃ f w v, ev = EvFilter f (OfScope nspace) w v text no_options
                         ∧ (w ∉ s) ∧ is_prefix text w)
         (events (namespace_loop rt self text nspace its m s)).
Proof.
  revert m s. induction its as [|[word value] its IH]; intros m s; simpl;
    [constructor|].
  destruct (bool_decide (slice_to (String.length text) word = text)
            && negb (bool_decide (word ∈ s))) eqn:Hsel; [|apply IH].
  apply andb_prop in Hsel as [Hpre%bool_decide_eq_true_1%slice_to_prefix
                               Hnin%negb_true_iff%bool_decide_eq_false_1].
  assert (∀ m', Forall (λ ev, ∃ f w v,
             ev = EvFilter f (OfScope nspace) w v text no_options
             ∧ (w ∉ s) ∧ is_prefix text w)
           (events (namespace_loop rt self text nspace its m' ({[word]} ∪ s))))
    as IH'.
  { intros m'. eapply Forall_impl; [apply IH|].
    intros ev (f & w & v & -> & Hw & ?). exists f, w, v.
    split_and!; [done| |done]. set_solver. }
  rewrite bind_events. apply Forall_app. split.
  - eapply Forall_impl; [apply _filter_events|].
    intros ev [f ->]. by exists f, word, value.
  - destruct (outcome _) as [[]|]; [|apply IH'|constructor].
    rewrite bind_events, _callable_postfix_events. simpl.
    destruct (outcome _); [apply IH'|constructor].
Qed.

Lemma nspaces_loop_events self text nspaces m s :
  Forall (λ ev, ∃ f tgt w v, ev = EvFilter f tgt w v text no_options
                             ∧ (w ∉ s) ∧ is_prefix text w)
         (events (nspaces_loop rt self text nspaces m s)).
Proof.
  revert m s. induction nspaces as [|nspace nspaces IH]; intros m s; simpl;
    [constructor|].
  rewrite bind_events. apply Forall_app. split.
  { destruct nspace; constructor. }
  destruct (outcome (items nspace)) as [its|]; [|constructor].
  rewrite bind_events. apply Forall_app. split.
  { eapply Forall_impl; [apply namespace_loop_events|].
    intros ev (f & w & v & -> & ? & ?). by exists f, (OfScope nspace), w, v. }
  destruct (namespace_loop rt self text nspace its m s) as [t [[m' s']|e]]
    eqn:Hloop; simpl; [|constructor].
  apply namespace_loop_spec in Hloop as (_ & _ & _ & _ & _ & _ & Hsub & _).
  eapply Forall_impl; [apply IH|].
  intros ev (f & tgt & w & v & -> & Hw & ?). exists f, tgt, w, v.
  split_and!; [done| |done]. set_solver.
Qed.

(** No filter is ever called on a keyword. *)
Lemma global_matches_events self text :
  Forall (λ ev, ¬ filters_keyword rt ev)
         (events (global_matches rt self text)).
Proof.
  unfold global_matches. rewrite keyword_loop_eq. cbv beta iota zeta.
  rewrite bind_events. unfold get_namespace.
  destruct (namespace self) as [ns|]; [|constructor].
  change (outcome (mret ns)) with (Ok ns : result scope).
  change (events (mret ns : M scope)) with (@nil event).
  cbv beta iota. rewrite app_nil_l.
  rewrite bind_events. apply Forall_app. split.
  - eapply Forall_impl; [apply nspaces_loop_events|].
    intros ev (f & tgt & w & v & -> & Hw & Hpre). simpl. intros Hkw.
    apply Hw, elem_of_union_l, elem_of_list_to_set, selected_elem. done.
  - destruct (outcome _); constructor.
Qed.

Lemma namespace_loop_all_rejected self text nspace its m s :
  (∀ w v, outcome (filter_namespace rt self nspace w v text no_options)
          = Ok false) →
  ∃ s', outcome (namespace_loop rt self text nspace its m s) = Ok (m, s').
Proof.
  intros Hrej. revert s. induction its as [|[word value] its IH]; intros s;
    simpl; [by eexists|].
  destruct (_ && _); [|apply IH].
  rewrite bind_outcome, Hrej. apply IH.
Qed.

(** C10. The keyword candidates do not go through the namespace filters:
    no filter is called on a keyword; whatever [global_matches] returns
    starts with the decorated keywords that start with [text], each of which
    is there; and with filters that reject every suggestion the list is
    exactly these keywords. *)
Theorem keywords_bypass_namespace_filters self text :
  Forall (λ ev, ¬ filters_keyword rt ev)
         (events (global_matches rt self text))
  ∧ (∀ ms, outcome (global_matches rt self text) = Ok ms →
       ∃ rest, ms = keyword_matches rt text ++ rest)
  ∧ (∀ k, k ∈ keywords rt → is_prefix text k →
       keyword_word k ∈ keyword_matches rt text)
  ∧ (∀ ns d,
       namespace self = Some ns → ns = ScopeDict d ∨ ns = ScopeMapping d →
       (∀ nspace w v,
          outcome (filter_namespace rt self nspace w v text no_options)
          = Ok false) →
       outcome (global_matches rt self text) = Ok (keyword_matches rt text)).
Proof.
  split_and!.
  - apply global_matches_events.
  - intros ms Hout.
    pose proof (M_eta (global_matches rt self text)) as Heta.
    rewrite Hout in Heta.
    apply global_matches_spec in Heta
      as (ns & d & b1 & c1 & b2 & c2 & _ & _ & -> & _).
    by exists (c1 ++ c2).
  - intros k Hk Hpre. unfold keyword_matches.
    apply list_elem_of_fmap_2, selected_elem. done.
  - intros ns d Hns Hd Hrej.
    unfold global_matches. rewrite keyword_loop_eq. cbv beta iota zeta.
    rewrite bind_outcome. unfold get_namespace. rewrite Hns.
    change (outcome (mret ns)) with (Ok ns : result scope). cbv beta iota.
    rewrite bind_outcome. simpl.
    rewrite bind_outcome.
    assert (outcome (items ns) = Ok d) as -> by (by destruct Hd as [-> | ->]).
    rewrite bind_outcome.
    destruct (namespace_loop_all_rejected self text ns d
                (keyword_word <$> selected text (kwlist rt ++ softkwlist rt))
                (list_to_set (selected text (kwlist rt ++ softkwlist rt))
                   ∪ {["__builtins__"]}) (Hrej ns)) as [s1 ->].
    simpl. rewrite !bind_outcome. simpl. rewrite bind_outcome.
    destruct (namespace_loop_all_rejected self text
                (ScopeDict (builtins_dict rt)) (builtins_dict rt)
                (keyword_word <$> selected text (kwlist rt ++ softkwlist rt))
                s1 (Hrej _)) as [s2 ->].
    done.
Qed.

(** A filter that raises at the head of the chain ends the pass at the
    first key that reaches the chain. *)
Lemma namespace_loop_raises self text nspace its m s f fs e w v :
  namespace_filters self = f :: fs →
  (∀ tgt k x t o, filter (heap rt f) tgt k x t o = Raise e) →
  (w, v) ∈ its → is_prefix text w → w ∉ s →
  outcome (namespace_loop rt self text nspace its m s) = Raise e.
Proof.
  intros Hfs Hf Hin Hpre. revert m s.
  induction its as [|[word value] its IH]; intros m s Hnin.
  { by apply elem_of_nil in Hin. }
  simpl.
  destruct (bool_decide (slice_to (String.length text) word = text)
            && negb (bool_decide (word ∈ s))) eqn:Hsel.
  - rewrite bind_outcome. unfold filter_namespace. rewrite Hfs.
    by rewrite (_filter_head_raises _ _ _ _ _ _ _ e).
  - apply elem_of_cons in Hin as [[= <- <-]|Hin]; [|by apply IH].
    apply andb_false_iff in Hsel as [Hsel|Hsel].
    + apply bool_decide_eq_false_1 in Hsel. by rewrite slice_to_prefix in Hsel.
    + by apply negb_false_iff, bool_decide_eq_true_1 in Hsel.
Qed.
End GlobalFacts.

(** ** [attr_matches] *)

Lemma rungs_relax noprefix :
  noprefix_truthy noprefix = true →
  (rungs (relax noprefix) < rungs noprefix)%nat.
Proof.
  intros Ht. destruct (decide (noprefix = Some "_")) as [->|Hne].
  - vm_compute. lia.
  - unfold rungs, relax. rewrite !(bool_decide_eq_false_2 _ Hne), Ht.
    vm_compute. lia.
Qed.

Lemma rungs_initial attr : (rungs (initial_noprefix attr) < 3)%nat.
Proof.
  unfold initial_noprefix.
  repeat case_bool_decide; vm_compute; lia.
Qed.

(** The second rung does not suppress anything when [attr] is empty: the
    slice [word[:1]] is never the two characters of the rule. *)
Lemma word_selected_second_rung word :
  word_selected "" (Some "__") word = true.
Proof.
  unfold word_selected. simpl.
  rewrite bool_decide_eq_true_2 by (by destruct word).
  rewrite bool_decide_eq_false_2; [done|].
  destruct word as [|c [|c' word]]; [done..|by destruct word].
Qed.

Section AttrFacts.
Context (rt : runtime).

(** The loop does not depend on its fuel once there is more of it than
    rungs left. *)
Lemma relax_loop_fuel fuel fuel' self text expr attr thisobject thistype
    words noprefix ms :
  (rungs noprefix < fuel)%nat → (rungs noprefix < fuel')%nat →
  relax_loop rt fuel self text expr attr thisobject thistype words noprefix ms
  = relax_loop rt fuel' self text expr attr thisobject thistype words
      noprefix ms.
Proof.
  revert fuel' noprefix ms.
  induction fuel as [|fuel IH]; intros [|fuel'] noprefix ms Hf Hf'; [lia..|].
  simpl. apply bind_ext. intros ms'.
  destruct (noprefix_truthy noprefix) eqn:Ht; simpl;
    [|by rewrite orb_true_r].
  rewrite orb_false_r. destruct (negb _); [done|].
  pose proof (rungs_relax _ Ht). apply IH; lia.
Qed.

(** Three rounds are enough from every initial rule: more fuel changes
    nothing. *)
Lemma relax_loop_three fuel self text expr attr thisobject thistype words ms :
  relax_loop rt (3 + fuel) self text expr attr thisobject thistype words
    (initial_noprefix attr) ms
  = relax_loop rt 3 self text expr attr thisobject thistype words
      (initial_noprefix attr) ms.
Proof.
  pose proof (rungs_initial attr). apply relax_loop_fuel; lia.
Qed.



(** The candidate of a property is the dotted name as it is. *)
Lemma attr_candidate_property self text expr attr thisobject noprefix word c :
  is_property (type_of thisobject) word = true →
  outcome (attr_candidate rt self text expr attr thisobject
             (type_of thisobject) noprefix word) = Ok (Some c) →
  c = expr +:+ "." +:+ word.
Proof.
  intros Hp. unfold attr_candidate.
  destruct (word_selected attr noprefix word); [|done].
  rewrite Hp, bind_outcome.
  destruct (outcome _) as [[]|]; simpl; congruence.
Qed.




(** The two accesses of [__class__]: what they leave in the trace, and
    what comes out. *)
Lemma getattr_class_eq o :
  getattr_class o
  = (EvGetattr o "__class__"
       :: (if is_property (type_of o) "__class__"
           then [EvGetter o "__class__"] else []),
     match assoc "__class__" (attrs o) with
     | Some (Raise e) => Raise e
     | _ =>
         match dunder_class o with
         | Some klass => Ok klass
         | None => Raise AttributeError
         end
     end).
Proof.
  unfold getattr_class, tell. rewrite bind_pair_Ok.
  destruct (is_property (type_of o) "__class__"); simpl.
  - rewrite bind_pair_Ok.
    by destruct (assoc "__class__" (attrs o)) as [[v|e]|],
         (dunder_class o).
  - rewrite bind_ret_l.
    by destruct (assoc "__class__" (attrs o)) as [[v|e]|],
         (dunder_class o).
Qed.

Lemma hasattr_class_eq o :
  hasattr_class o
  = (events (getattr_class o),
     match outcome (getattr_class o) with
     | Ok _ => Ok true
     | Raise e => if issubclass e AttributeError then Ok false else Raise e
     end).
Proof.
  unfold hasattr_class. rewrite getattr_class_eq. simpl.
  set (t := EvGetattr o "__class__" :: _).
  destruct (match assoc "__class__" (attrs o) with
            | Some (Raise e) => Raise e
            | _ => match dunder_class o with
                   | Some klass => Ok klass
                   | None => Raise AttributeError
                   end
            end) as [k|e].
  - by rewrite bind_pair_Ok, app_nil_r.
  - rewrite bind_pair_Raise. simpl.
    destruct (issubclass e AttributeError); [|done]. by rewrite app_nil_r.
Qed.

(** [words] is built with one access of [__class__] when the object has
    none, and with two when it has one. *)
Lemma attr_words_eq o :
  attr_words o
  = match outcome (getattr_class o) with
    | Ok klass =>
        (events (getattr_class o) ++ events (getattr_class o),
         Ok (({["__class__"]} ∪ (list_to_set (dir o) ∖ {["__builtins__"]}))
             ∪ list_to_set (_iter_class_members klass)))
    | Raise e =>
        (events (getattr_class o),
         if issubclass e AttributeError
         then Ok (list_to_set (dir o) ∖ {["__builtins__"]})
         else Raise e)
    end.
Proof.
  unfold attr_words. rewrite hasattr_class_eq.
  destruct (getattr_class o) as [t [klass|e]]; simpl.
  - by rewrite bind_pair_Ok, bind_pair_Ok, app_nil_r.
  - destruct (issubclass e AttributeError).
    + by rewrite bind_pair_Ok, app_nil_r.
    + by rewrite bind_pair_Raise.
Qed.








(** An exception of the resolution that [except Exception] handles gives
    the empty list. *)
Lemma attr_matches_unresolved self text expr attr ns e :
  re_match text = Some (expr, attr) →
  namespace self = Some ns →
  outcome (eval rt expr ns) = Raise e → issubclass e Exception = true →
  outcome (attr_matches rt self text) = Ok [].
Proof.
  intros Hm Hns He Hsub. unfold attr_matches, get_namespace. rewrite Hm, Hns.
  destruct (eval rt expr ns) as [te r] eqn:Heval. simpl in He. subst r.
  rewrite bind_ret_l. unfold tell. rewrite bind_pair_Ok, Heval, bind_pair_Raise.
  simpl. unfold try_except. rewrite Hsub. simpl. done.
Qed.

End AttrFacts.

(** ** [complete] *)

Section CompleteFacts.
Context (rt : runtime).

(** [complete(text, 0)] on a text that is not blank: an exception of
    [get_matches] is the exception of the call and leaves [self.matches]
    alone; a list is stored and its first element, if any, returned. *)
Lemma complete_first self text :
  str_truthy (strip text) = true →
  complete rt self text 0
  = match get_matches rt (bind_namespace rt self) text with
    | (t, Ok ms) =>
        (MkCompleter (namespace_filters (bind_namespace rt self))
           (attribute_filters (bind_namespace rt self))
           (use_main_ns (bind_namespace rt self))
           (namespace (bind_namespace rt self)) (Some ms),
         (t, Ok (ms !! 0%nat)))
    | (t, Raise e) => (bind_namespace rt self, (t, Raise e))
    end.
Proof.
  intros Hs. unfold complete. rewrite Hs. simpl.
  destruct (get_matches rt (bind_namespace rt self) text) as [t [ms|e]];
    simpl; [|done].
  rewrite bind_pair_Ok. unfold py_index. simpl.
  change (Z.to_nat 0) with 0%nat.
  destruct (ms !! 0%nat); simpl; by rewrite app_nil_r.
Qed.

Lemma bind_namespace_filters self :
  namespace_filters (bind_namespace rt self) = namespace_filters self.
Proof. unfold bind_namespace. by destruct (negb _). Qed.

(** A filter that raises at the head of the namespace chain makes
    [global_matches] raise as soon as the namespace has a key that reaches
    the chain. *)
Lemma global_matches_raises self text ns d f fs e w v :
  namespace self = Some ns → ns = ScopeDict d ∨ ns = ScopeMapping d →
  namespace_filters self = f :: fs →
  (∀ tgt k x t o, filter (heap rt f) tgt k x t o = Raise e) →
  (w, v) ∈ d → is_prefix text w → w ∉ keywords rt → w ≠ "__builtins__" →
  outcome (global_matches rt self text) = Raise e.
Proof.
  intros Hns Hd Hfs Hf Hin Hpre Hkw Hbi.
  unfold global_matches. rewrite keyword_loop_eq. cbv beta iota zeta.
  rewrite bind_outcome. unfold get_namespace. rewrite Hns.
  change (outcome (mret ns)) with (Ok ns : result scope). cbv beta iota.
  rewrite bind_outcome. simpl. rewrite bind_outcome.
  assert (outcome (items ns) = Ok d) as -> by (by destruct Hd as [-> | ->]).
  rewrite bind_outcome.
  rewrite (namespace_loop_raises rt self text ns d _ _ f fs e w v); try done.
  rewrite elem_of_union, elem_of_list_to_set, selected_elem, elem_of_singleton.
  intros [[_ ?]|?]; done.
Qed.

(** C1, as the code has it. [complete(text, 0)] handles no exception of the
    matching pipeline: whatever [get_matches] raises, the call raises, and
    [self.matches] keeps its value. An exception raised by a filter is not
    handled anywhere: with a filter at the head of the namespace chain that
    raises, the call raises as soon as a key of the namespace starts with
    the text and is not a keyword. What is handled, inside [attr_matches],
    is an exception of class [Exception] raised while the dotted prefix is
    resolved: the call then returns [None] and the cached list is empty. *)
Theorem complete_propagates_pipeline_exceptions self text :
  str_truthy (strip text) = true →
  (∀ e, outcome (get_matches rt (bind_namespace rt self) text) = Raise e →
        outcome (complete rt self text 0).2 = Raise e
        ∧ matches (complete rt self text 0).1 = matches self)
  ∧ (∀ ns d f fs e w v,
       contains_char "." text = false →
       namespace (bind_namespace rt self) = Some ns →
       ns = ScopeDict d ∨ ns = ScopeMapping d →
       namespace_filters self = f :: fs →
       (∀ tgt k x t o, filter (heap rt f) tgt k x t o = Raise e) →
       (w, v) ∈ d → is_prefix text w → w ∉ keywords rt →
       w ≠ "__builtins__" →
       outcome (complete rt self text 0).2 = Raise e)
  ∧ (∀ expr attr ns e,
       re_match text = Some (expr, attr) →
       namespace (bind_namespace rt self) = Some ns →
       outcome (eval rt expr ns) = Raise e → issubclass e Exception = true →
       outcome (complete rt self text 0).2 = Ok None
       ∧ matches (complete rt self text 0).1 = Some []).
Proof.
  intros Hs. rewrite (complete_first self text Hs). split_and!.
  - intros e He.
    destruct (get_matches rt (bind_namespace rt self) text) as [t [ms|e']];
      simpl in He; [done|]. injection He as ->. split; [done|].
    simpl. unfold bind_namespace. by destruct (negb _).
  - intros ns d f fs e w v Hdot Hns Hd Hfs Hf Hin Hpre Hkw Hbi.
    assert (outcome (get_matches rt (bind_namespace rt self) text) = Raise e)
      as He.
    { unfold get_matches. rewrite Hdot.
      eapply global_matches_raises; try done.
      by rewrite bind_namespace_filters. }
    destruct (get_matches rt (bind_namespace rt self) text) as [t [ms|e']];
      simpl in He; [done|]. by injection He as ->.
  - intros expr attr ns e Hm Hns He Hsub.
    assert (outcome (get_matches rt (bind_namespace rt self) text) = Ok [])
      as Hout.
    { unfold get_matches. rewrite (re_match_contains_dot _ _ _ Hm).
      by eapply attr_matches_unresolved. }
    destruct (get_matches rt (bind_namespace rt self) text) as [t [ms|e']];
      simpl in Hout; [|done]. by injection Hout as ->.
Qed.
End CompleteFacts.

(** ** The claims on concrete inputs *)

(** C1, an instance: a completer whose namespace chain starts with the
    raising filter, asked for ["sp"]. *)
Lemma complete_propagates_pipeline_exceptions_witness :
  str_truthy (strip "sp") = true
  ∧ outcome (complete sample_runtime (sample_completer [2%nat] []) "sp" 0).2
    = Raise ValueError.
Proof.
  split; [reflexivity|].
  destruct (complete_propagates_pipeline_exceptions sample_runtime
              (sample_completer [2%nat] []) "sp" eq_refl) as (_ & Hraise & _).
  apply (Hraise (ScopeDict sample_namespace) sample_namespace 2%nat []
           ValueError "spam" (function_of 0)).
  - reflexivity.
  - reflexivity.
  - by left.
  - reflexivity.
  - reflexivity.
  - left.
  - by exists "am".
  - apply (bool_decide_unpack _). vm_compute. exact I.
  - discriminate.
Defined.

(** C1, counterexample: the exception of a filter leaves [complete]. *)
Lemma complete_filter_exception_counterexample :
  str_truthy (strip "sp") = true
  ∧ complete sample_runtime (sample_completer [2%nat] []) "sp" 0
    = (sample_completer [2%nat] [],
       ([EvFilter 2%nat (OfScope (ScopeDict sample_namespace)) "spam"
                  (function_of 0) "sp" no_options],
        Raise ValueError)).
Proof. split; vm_compute; reflexivity. Qed.

(** C2, as the code has it. [attr_matches] returns the empty list at once,
    with no event at all, for every text that does not start with a match
    of the pattern. A text that starts with one is matched on that start
    only, the longest there is, whatever follows it: the chain of names is
    group 1, the run of word characters after its dot is group 3, and with
    a namespace at hand the chain is handed to [eval]. *)
Theorem attr_matches_needs_prefix_shape (rt : runtime) (self : Completer)
    (text : string) :
  (¬ prefix_shape text → attr_matches rt self text = ([], Ok []))
  ∧ (prefix_shape text →
     ∃ expr attr rest,
       re_match text = Some (expr, attr)
       ∧ text = expr +:+ "." +:+ attr +:+ rest ∧ stops_match attr rest
       ∧ dotted_chain expr ∧ is_word attr = true
       ∧ ∀ ns, namespace self = Some ns →
           ∃ t, events (attr_matches rt self text) = EvEval expr ns :: t).
Proof.
  split.
  - intros Hno. unfold attr_matches. by rewrite (re_match_no_shape _ Hno).
  - intros [[expr attr] Hm]%re_match_shape.
    destruct (re_match_sound _ _ _ Hm)
      as (Hchain & Hw & rest & Htext & Hstop).
    exists expr, attr, rest. split_and!; [done..|].
    intros ns Hns. unfold attr_matches, get_namespace. rewrite Hm, Hns.
    rewrite bind_ret_l. unfold tell. rewrite bind_pair_Ok. simpl.
    destruct (eval rt expr ns) as [te [o|e]].
    + rewrite bind_pair_Ok. simpl. rewrite bind_pair_Ok. by eexists.
    + rewrite bind_pair_Raise. simpl.
      destruct (issubclass e Exception); simpl; by eexists.
Qed.

(** C2, an instance: a text that starts with a dot is not resolved. *)
Lemma attr_matches_needs_prefix_shape_witness :
  attr_matches sample_runtime (sample_completer [] []) ".x" = ([], Ok []).
Proof.
  apply (attr_matches_needs_prefix_shape sample_runtime
           (sample_completer [] []) ".x").
  intros Hshape%re_match_shape. vm_compute in Hshape.
  by destruct Hshape.
Defined.

(** C2, counterexample: ["egg.s("] is not a match of the pattern from start
    to end, and yet its start [egg.s] is resolved and completed. *)
Lemma attr_matches_trailing_text_counterexample :
  ¬ entire_shape "egg.s("
  ∧ attr_matches sample_runtime (sample_completer [] []) "egg.s("
    = ([EvEval "egg" (ScopeDict sample_namespace);
        EvGetattr egg_object "__class__"; EvGetattr egg_object "__class__";
        EvGetattr egg_object "strip"; EvGetattr egg_object "spam"],
       Ok ["egg.spam"; "egg.strip("]).
Proof.
  split.
  - intros Hshape%entire_shape_chars. vm_compute in Hshape. discriminate.
  - vm_compute. reflexivity.
Qed.

(** C3, on the code. For an object all of whose members start with an
    underscore, the completion of ["x."] finds nothing under the first
    rule, relaxes it once, and with that one relaxation already returns
    the members that start with two underscores: under the second rule
    with an empty [attr] every word is selected. *)
Theorem attr_matches_first_retry_admits_dunder :
  initial_noprefix "" = Some "_"
  ∧ relax (Some "_") = Some "__"
  ∧ (∀ word, word_selected "" (Some "__") word = true)
  ∧ (∃ words,
       outcome (attr_words private_object) = Ok words
       ∧ outcome (words_loop sample_runtime (sample_completer [] []) "x." "x"
                    "" private_object private_class (Some "_")
                    (elements words) [])
         = Ok []
       ∧ outcome (words_loop sample_runtime (sample_completer [] []) "x." "x"
                    "" private_object private_class (Some "__")
                    (elements words) [])
         = Ok ["x.__class__()"; "x.__doc__"; "x._sunder"])
  ∧ outcome (attr_matches sample_runtime (sample_completer [] []) "x.")
    = Ok ["x.__class__()"; "x.__doc__"; "x._sunder"].
Proof.
  split_and!; [reflexivity|reflexivity|apply word_selected_second_rung| |].
  - eexists. split_and!; [vm_compute; reflexivity|vm_compute; reflexivity..].
  - vm_compute. reflexivity.
Qed.

(** C4, as the code has it. [Completer(namespace)] raises [TypeError] for
    an argument that is true and not a [dict]; an argument that is false
    is taken as it is, [dict] or not, and so is every [dict]; without an
    argument the namespace is left for [complete] to bind. *)
Theorem Completer_init_rejects_true_non_dict :
  Completer_init None = Ok (MkCompleter [] [] 1 None None)
  ∧ (∀ ns, scope_truthy ns = true → (∀ d, ns ≠ ScopeDict d) →
           Completer_init (Some ns) = Raise TypeError)
  ∧ (∀ ns, scope_truthy ns = false ∨ (∃ d, ns = ScopeDict d) →
           Completer_init (Some ns)
           = Ok (MkCompleter [] [] 0 (Some ns) None)).
Proof.
  split_and!; [done| |].
  - intros ns Ht Hd. unfold Completer_init. simpl. rewrite Ht.
    destruct ns; try done. by destruct (Hd d).
  - intros ns [Hf|[d ->]]; unfold Completer_init; simpl.
    + by rewrite Hf.
    + by rewrite andb_false_r.
Qed.

(** C4, an instance: a list with an element is refused. *)
Lemma Completer_init_rejects_true_non_dict_witness :
  scope_truthy (ScopeList [plain_value]) = true
  ∧ Completer_init (Some (ScopeList [plain_value])) = Raise TypeError.
Proof.
  split; [reflexivity|].
  destruct Completer_init_rejects_true_non_dict as (_ & Hraise & _).
  apply Hraise; [reflexivity|discriminate].
Defined.

(** C4, counterexample: an empty list is not a mapping and is accepted. *)
Lemma Completer_init_empty_list_counterexample :
  Completer_init (Some (ScopeList []))
  = Ok (MkCompleter [] [] 0 (Some (ScopeList [])) None).
Proof. reflexivity. Qed.

(** C5, as the code has it. [_callable_postfix] leaves the word of a value
    that is not callable as it is; for a callable it appends ["("], and
    [")"] too exactly when the signature has no parameter; when
    [inspect.signature] raises [ValueError] (or a subclass of it) the word
    keeps the opening marker alone; any other exception of
    [inspect.signature] is raised by [_callable_postfix] itself. *)
Theorem _callable_postfix_cases (val : pyobj) (word : string) :
  (callable val = false → _callable_postfix val word = ([], Ok word))
  ∧ (callable val = true → signature val = Parameters 0 →
     _callable_postfix val word = ([], Ok (word +:+ "()")))
  ∧ (∀ n, callable val = true → signature val = Parameters (S n) →
     _callable_postfix val word = ([], Ok (word +:+ "(")))
  ∧ (∀ e, callable val = true → signature val = SignatureRaises e →
     issubclass e ValueError = true →
     _callable_postfix val word = ([], Ok (word +:+ "(")))
  ∧ (∀ e, callable val = true → signature val = SignatureRaises e →
     issubclass e ValueError = false →
     _callable_postfix val word = ([], Raise e)).
Proof.
  unfold _callable_postfix. split_and!.
  - by intros ->.
  - intros -> ->. simpl. by rewrite str_app_assoc.
  - by intros n -> ->.
  - by intros e -> -> ->.
  - by intros e -> -> ->.
Qed.

(** C5, an instance: a callable whose signature lookup raises
    [ValueError] keeps the opening marker. *)
Lemma _callable_postfix_cases_witness :
  issubclass ValueError ValueError = true
  ∧ _callable_postfix (opaque_callable ValueError) "f" = ([], Ok "f(").
Proof.
  split; [reflexivity|].
  destruct (_callable_postfix_cases (opaque_callable ValueError) "f")
    as (_ & _ & _ & Hvalue & _).
  apply (Hvalue ValueError); reflexivity.
Defined.

(** C5, counterexample: a callable whose signature lookup raises
    [TypeError]. *)
Lemma _callable_postfix_type_error_counterexample :
  callable (opaque_callable TypeError) = true
  ∧ signature (opaque_callable TypeError) = SignatureRaises TypeError
  ∧ _callable_postfix (opaque_callable TypeError) "f" = ([], Raise TypeError).
Proof. by split_and!. Qed.

(** The getter of a property does run when the property is part of the
    dotted prefix: that is the resolution by [eval], before the scan. *)
Lemma resolution_of_a_property_runs_its_getter :
  attr_matches sample_runtime (sample_completer [] []) "f.bar.x"
  = ([EvEval "f.bar" (ScopeDict sample_namespace);
      EvGetattr foo_object "bar"; EvGetter foo_object "bar";
      EvGetattr plain_value "__class__"; EvGetattr plain_value "__class__"],
     Ok []).
Proof. vm_compute. reflexivity. Qed.



(** C7, an instance: the chain of the example. *)
Lemma add_filter_keeps_chain_sorted_and_stable_witness :
  add_all sample_runtime [] [50; 10; 11; 0; 1]%nat = [10; 11; 50; 0; 1]%nat
  ∧ _add_filter sample_runtime [10; 11; 50; 0; 1]%nat 11%nat
    = ([10; 11; 50; 0; 1]%nat, false).
Proof.
  destruct (add_filter_keeps_chain_sorted_and_stable sample_runtime
              [50; 10; 11; 0; 1]%nat) as (_ & _ & _ & _ & Hdup & _ & Hex).
  assert (add_all sample_runtime [] [50; 10; 11; 0; 1]%nat
          = [10; 11; 50; 0; 1]%nat) as Heq.
  { apply Hex; [|reflexivity..].
    apply (bool_decide_unpack _). vm_compute. exact I. }
  split; [exact Heq|].
  rewrite <-Heq. apply Hdup. rewrite Heq.
  apply (bool_decide_unpack _). vm_compute. exact I.
Defined.

(** C8, an instance: the candidates for ["l"]. *)
Lemma global_matches_prefix_distinct_witness :
  NoDup (keywords sample_runtime)
  ∧ outcome (global_matches sample_runtime (sample_completer [] []) "l")
    = Ok ["lambda "; "len"]
  ∧ undecorate <$> ["lambda "; "len"] = ["lambda"; "len"]
  ∧ ∃ bases,
      NoDup bases
      ∧ Forall2 (λ base cand, decorated base cand ∧ is_prefix "l" base)
                bases ["lambda "; "len"].
Proof.
  assert (NoDup (keywords sample_runtime)) as Hkw.
  { apply (bool_decide_unpack _). vm_compute. exact I. }
  split_and!; [exact Hkw|vm_compute; reflexivity|reflexivity|].
  destruct (global_matches_prefix_distinct sample_runtime
              (sample_completer [] []) "l" ["lambda "; "len"] Hkw)
    as (bases & Hnd & Hdec & _); [vm_compute; reflexivity|].
  by exists bases.
Defined.

(** C8, counterexample: a key that is no name. The function [foo] and the
    key ["foo("] give the same candidate twice, and for the text ["foo("]
    the candidate of that key has an undecorated form that the text is no
    prefix of. *)
Lemma global_matches_decorated_key_counterexample :
  outcome (global_matches sample_runtime
             (MkCompleter [] [] 0 (Some (ScopeDict decorated_namespace)) None)
             "foo")
  = Ok ["foo("; "foo("]
  ∧ undecorate <$> ["foo("; "foo("] = ["foo"; "foo"]
  ∧ outcome (global_matches sample_runtime
               (MkCompleter [] [] 0 (Some (ScopeDict decorated_namespace))
                  None)
               "foo(")
    = Ok ["foo("]
  ∧ ¬ is_prefix "foo(" (undecorate "foo(").
Proof.
  split_and!; [vm_compute; reflexivity..|].
  intros H%slice_to_prefix. vm_compute in H. discriminate.
Qed.

(** C9, an instance: the namespace holds a [len] that is not callable, the
    filter keeps callables only, and the callable [len] of the built-ins
    does not come back. *)
Lemma rejected_name_not_supplied_later_witness :
  assoc "len" sample_namespace = Some plain_value
  ∧ assoc "len" sample_builtins = Some (function_of 1)
  ∧ outcome (filter_namespace sample_runtime (sample_completer [4%nat] [])
               (ScopeDict sample_builtins) "len" (function_of 1) "l"
               no_options) = Ok true
  ∧ outcome (global_matches sample_runtime (sample_completer [4%nat] []) "l")
    = Ok ["lambda "]
  ∧ Forall (λ cand, undecorate cand ≠ "len") ["lambda "].
Proof.
  split_and!; [reflexivity|reflexivity|vm_compute; reflexivity
              |vm_compute; reflexivity|].
  apply (rejected_name_not_supplied_later sample_runtime
           (sample_completer [4%nat] []) "l" (ScopeDict sample_namespace)
           sample_namespace "len" plain_value).
  - reflexivity.
  - by left.
  - apply (bool_decide_unpack _). vm_compute. exact I.
  - reflexivity.
  - apply (bool_decide_unpack _). vm_compute. exact I.
  - vm_compute. reflexivity.
  - vm_compute. reflexivity.
Defined.

(** C10, an instance: with the filter that rejects everything the
    candidates for ["l"] are the keyword alone. *)
Lemma keywords_bypass_namespace_filters_witness :
  outcome (global_matches sample_runtime (sample_completer [1%nat] []) "l")
  = Ok (keyword_matches sample_runtime "l")
  ∧ keyword_matches sample_runtime "l" = ["lambda "].
Proof.
  split; [|vm_compute; reflexivity].
  destruct (keywords_bypass_namespace_filters sample_runtime
              (sample_completer [1%nat] []) "l") as (_ & _ & _ & Hrej).
  apply (Hrej (ScopeDict sample_namespace) sample_namespace);
    [reflexivity|by left|].
  intros nspace w v. reflexivity.
Defined.

(** * Further properties *)

(** ** Lists and text *)

Lemma Forall2_exists_l {A B} (P : A → B → Prop) l k :
  Forall2 P l k → Forall (λ x, ∃ y, P x y) l.
Proof. induction 1; constructor; eauto. Qed.

Lemma flat_map_elem_of {A B} (f : A → list B) l y :
  y ∈ flat_map f l ↔ ∃ x, x ∈ l ∧ y ∈ f x.
Proof.
  rewrite !list_elem_of_In, in_flat_map. setoid_rewrite list_elem_of_In. done.
Qed.

Lemma assoc_elem_of {A} k (v : A) d : assoc k d = Some v → (k, v) ∈ d.
Proof.
  induction d as [|[k' v'] d IH]; simpl; [done|].
  destruct (String.eqb_spec k' k) as [->|Hne].
  - intros [= ->]. left.
  - intros H. right. by apply IH.
Qed.

Lemma is_prefix_app_r text word rest :
  is_prefix text word → is_prefix text (word +:+ rest).
Proof. intros [r ->]. exists (r +:+ rest). by rewrite str_app_assoc. Qed.

Lemma is_prefix_app_l a text word :
  is_prefix text word → is_prefix (a +:+ text) (a +:+ word).
Proof. intros [r ->]. exists r. by rewrite str_app_assoc. Qed.

Lemma postfixed_prefix text base cand :
  is_prefix text base → postfixed base cand → is_prefix text cand.
Proof.
  intros Hp [->|[->| ->]]; [done|by apply is_prefix_app_r..].
Qed.

Lemma str_length_app a b :
  String.length (a +:+ b) = (String.length a + String.length b)%nat.
Proof.
  induction a as [|c a IH]; [done|]. rewrite str_app_cons. simpl. by rewrite IH.
Qed.

Lemma lstrip_blank s : lstrip s = "" ↔ is_blank s = true.
Proof.
  induction s as [|c s IH]; simpl; [done|].
  destruct (is_space_char c); simpl; [done|]. split; done.
Qed.

Lemma rev_app_blank s acc :
  is_blank (String.rev_app s acc) = is_blank s && is_blank acc.
Proof.
  revert acc. induction s as [|c s IH]; intros acc; simpl; [done|].
  rewrite IH. simpl. destruct (is_space_char c), (is_blank s); done.
Qed.

Lemma rev_blank s : is_blank (String.rev s) = is_blank s.
Proof.
  unfold String.rev. rewrite rev_app_blank. simpl. by rewrite andb_true_r.
Qed.

Lemma rev_app_empty s acc : String.rev_app s acc = "" → s = "" ∧ acc = "".
Proof.
  revert acc. induction s as [|c s IH]; intros acc; simpl; [done|].
  intros [_ [=]]%IH.
Qed.

Lemma lstrip_head s : lstrip s = "" ∨ is_blank (lstrip s) = false.
Proof.
  induction s as [|c s IH]; simpl; [by left|].
  destruct (is_space_char c) eqn:Hc; [done|]. right. simpl. by rewrite Hc.
Qed.

(** [text.strip()] is empty exactly for a text of whitespace. *)
Lemma strip_blank s : str_truthy (strip s) = false ↔ is_blank s = true.
Proof.
  unfold strip. split.
  - intros Hs.
    assert (String.rev (lstrip (String.rev (lstrip s))) = "") as Hrev
      by (by destruct (String.rev _)).
    apply rev_app_empty in Hrev as [Hl _].
    apply lstrip_blank in Hl. rewrite rev_blank in Hl.
    destruct (lstrip_head s) as [H|H]; [by apply lstrip_blank|congruence].
  - intros Hb. apply lstrip_blank in Hb. by rewrite Hb.
Qed.

(** ** Removing filters, and chains that are not sorted *)

Lemma list_remove_middle x l1 l2 :
  x ∉ l1 → list_remove x (l1 ++ x :: l2) = l1 ++ l2.
Proof.
  induction l1 as [|y l1 IH]; simpl.
  - intros _. by rewrite bool_decide_eq_true_2.
  - intros [Hne Hnin]%not_elem_of_cons.
    rewrite bool_decide_eq_false_2 by done. by rewrite IH.
Qed.

Lemma list_remove_split x l :
  x ∈ l → ∃ l1 l2, l = l1 ++ x :: l2 ∧ (x ∉ l1) ∧ list_remove x l = l1 ++ l2.
Proof.
  induction l as [|y l IH]; [by intros ?%elem_of_nil|].
  destruct (decide (y = x)) as [->|Hne].
  - intros _. exists [], l. split_and!; [done|apply not_elem_of_nil|].
    simpl. by rewrite bool_decide_eq_true_2.
  - intros [?|Hin]%elem_of_cons; [congruence|].
    destruct (IH Hin) as (l1 & l2 & -> & Hnin & Heq).
    exists (y :: l1), l2. split_and!; [done| |].
    + apply not_elem_of_cons. split; [congruence|done].
    + simpl. rewrite bool_decide_eq_false_2 by done. by rewrite Heq.
Qed.

Lemma _remove_filter_present f filters :
  f ∈ filters → _remove_filter filters f = (list_remove f filters, true).
Proof.
  intros Hin. unfold _remove_filter.
  rewrite (bool_decide_eq_true_2 (f ∈ filters)) by done.
  rewrite bool_decide_eq_false_2; [done|].
  intros ->. by apply elem_of_nil in Hin.
Qed.

Lemma _remove_filter_absent f filters :
  f ∉ filters → _remove_filter filters f = (filters, false).
Proof.
  intros Hnin. unfold _remove_filter.
  rewrite (bool_decide_eq_false_2 (f ∈ filters)) by done.
  by rewrite andb_false_r.
Qed.

Section RemovalFacts.
Context (rt : runtime).

(** X1. Removing a filter right after it was registered gives back the
    chain as it was: a filter that the chain does not hold is registered
    ([_add_filter] returns [True]), [_has_filter] then finds it, and
    [_remove_filter] returns [True] and leaves the former chain, whatever
    the priorities are. *)
Theorem remove_filter_undoes_add_filter filters f :
  f ∉ filters →
  (_add_filter rt filters f).2 = true
  ∧ _remove_filter (_add_filter rt filters f).1 f = (filters, true)
  ∧ _has_filter (_add_filter rt filters f).1 f = true.
Proof.
  intros Hnin.
  destruct (_add_filter_cases rt filters f)
    as [[_ ?]|(l1 & l2 & -> & -> & Hn1 & _ & _)]; [done|]. simpl.
  assert (f ∈ l1 ++ f :: l2) as Hin.
  { apply elem_of_app. right. left. }
  split_and!; [done| |].
  - rewrite _remove_filter_present by done. by rewrite list_remove_middle.
  - unfold _has_filter. rewrite (bool_decide_eq_true_2 _ Hin).
    rewrite bool_decide_eq_false_2; [done|]. by destruct l1.
Qed.

(** X2. [_remove_filter] on a filter that the chain does not hold returns
    [False] and changes nothing. On one that it holds it returns [True]
    and drops the first occurrence only; the other filters keep their
    order, so a sorted chain stays sorted, and in a chain without
    repetition the filter is gone afterwards and every other filter is
    still there. *)
Theorem remove_filter_keeps_the_rest filters f :
  (f ∉ filters → _remove_filter filters f = (filters, false))
  ∧ (f ∈ filters →
     (_remove_filter filters f).2 = true
     ∧ (∃ l1 l2, filters = l1 ++ f :: l2 ∧ (f ∉ l1)
                 ∧ (_remove_filter filters f).1 = l1 ++ l2)
     ∧ (StronglySorted (prio_le rt) filters →
        StronglySorted (prio_le rt) (_remove_filter filters f).1)
     ∧ (NoDup filters →
        NoDup (_remove_filter filters f).1
        ∧ ∀ x, x ∈ (_remove_filter filters f).1 ↔ x ∈ filters ∧ x ≠ f)).
Proof.
  split; [apply _remove_filter_absent|].
  intros Hin. rewrite _remove_filter_present by done. simpl.
  destruct (list_remove_split _ _ Hin) as (l1 & l2 & -> & Hn1 & ->).
  split_and!; [done|by exists l1, l2| |].
  - rewrite !StronglySorted_app, StronglySorted_cons.
    intros (Hcross & H1 & _ & H2). split_and!; [|done..].
    intros x1 x2 ??. apply Hcross; [done|by right].
  - intros (H1 & H12 & [Hn2 H2]%NoDup_cons)%NoDup_app. split.
    + apply NoDup_app. split_and!; [done| |done].
      intros x Hx1 Hx2. apply (H12 x); [done|by right].
    + intros x. rewrite !elem_of_app, elem_of_cons. split.
      * intros [?|?]; (split; [tauto|]); intros ->; done.
      * intros [[?|[?|?]] ?]; tauto.
Qed.

Lemma _add_filter_scan_stops l1 g l2 f i :
  f ∉ l1 → Forall (λ h, prio rt h ≤ prio rt f) l1 → prio rt f < prio rt g →
  g ≠ f →
  _add_filter_scan rt i (l1 ++ g :: l2) f
  = Position (i + Z.of_nat (length l1)).
Proof.
  intros Hnin Hall Hlt Hne. revert i.
  induction l1 as [|h l1 IH]; intros i; simpl.
  - rewrite bool_decide_eq_false_2 by done.
    unfold prio in Hlt. apply Z.ltb_lt in Hlt. rewrite Hlt. f_equal. lia.
  - apply not_elem_of_cons in Hnin as [Hhf Hnin].
    apply Forall_cons in Hall as [Hh Hall].
    rewrite bool_decide_eq_false_2 by done.
    unfold prio in Hh. apply Z.ltb_ge in Hh. rewrite Hh.
    rewrite IH by done. f_equal. lia.
Qed.

(** X3. The scan of [_add_filter] ends at the first filter of a larger
    priority and does not look behind it: the new filter goes right before
    that one, whatever follows. In a chain that is not sorted (its list or
    a priority was changed from outside) a filter that stands behind a
    larger priority is therefore registered a second time. *)
Theorem add_filter_stops_at_first_larger_priority l1 g l2 f :
  f ∉ l1 → Forall (λ h, prio rt h ≤ prio rt f) l1 → prio rt f < prio rt g →
  _add_filter rt (l1 ++ g :: l2) f = (l1 ++ f :: g :: l2, true)
  ∧ (f ∈ l2 → ¬ NoDup (_add_filter rt (l1 ++ g :: l2) f).1).
Proof.
  intros Hnin Hall Hlt.
  assert (g ≠ f) as Hne by (intros ->; lia).
  assert (_add_filter rt (l1 ++ g :: l2) f = (l1 ++ f :: g :: l2, true)) as Heq.
  { unfold _add_filter. rewrite _add_filter_scan_stops by done.
    destruct (Z.eqb_spec (0 + Z.of_nat (length l1)) (-1)) as [?|_]; [lia|].
    unfold list_insert_at.
    replace (Z.to_nat (0 + Z.of_nat (length l1))) with (length l1) by lia.
    by rewrite take_app_length, drop_app_length. }
  split; [done|].
  intros Hin. rewrite Heq. simpl. intros Hnd.
  apply NoDup_app in Hnd as (_ & _ & Hnd).
  apply NoDup_cons in Hnd as [Hf _]. apply Hf. by right.
Qed.
End RemovalFacts.

(** ** Running the chain *)

Section ChainFacts.
Context (rt : runtime).

Lemma _filter_cons g rest tgt w v text opts :
  _filter rt (g :: rest) tgt w v text opts
  = match filter (heap rt g) tgt w v text opts with
    | Ok true =>
        (EvFilter g tgt w v text opts
           :: events (_filter rt rest tgt w v text opts),
         outcome (_filter rt rest tgt w v text opts))
    | Ok false => ([EvFilter g tgt w v text opts], Ok false)
    | Raise e => ([EvFilter g tgt w v text opts], Raise e)
    end.
Proof.
  simpl. unfold call_filter, tell, lift. rewrite bind_pair_Ok. simpl.
  destruct (filter (heap rt g) tgt w v text opts) as [[]|e]; simpl; [| |done].
  - by rewrite bind_pair_Ok.
  - by rewrite bind_pair_Ok.
Qed.

(** X4. [_filter] calls the filters in chain order and stops at the first
    one that does not keep the suggestion: while the filters accept, each
    is called once and the answer is [True]; at the first that returns
    [False] the answer is [False], at the first that raises the exception
    leaves [_filter], and in both cases no later filter is called. *)
Theorem filter_chain_stops_at_first_refusal l1 f l2 tgt w v text opts :
  Forall (λ g, filter (heap rt g) tgt w v text opts = Ok true) l1 →
  _filter rt l1 tgt w v text opts
  = ((λ g, EvFilter g tgt w v text opts) <$> l1, Ok true)
  ∧ (filter (heap rt f) tgt w v text opts = Ok false →
     _filter rt (l1 ++ f :: l2) tgt w v text opts
     = ((λ g, EvFilter g tgt w v text opts) <$> (l1 ++ [f]), Ok false))
  ∧ (∀ e, filter (heap rt f) tgt w v text opts = Raise e →
     _filter rt (l1 ++ f :: l2) tgt w v text opts
     = ((λ g, EvFilter g tgt w v text opts) <$> (l1 ++ [f]), Raise e)).
Proof.
  induction 1 as [|g l1 Hg _ (IH1 & IH2 & IH3)].
  - split_and!; [done| |].
    + intros Hf. change ([] ++ f :: l2) with (f :: l2).
      by rewrite _filter_cons, Hf.
    + intros e Hf. change ([] ++ f :: l2) with (f :: l2).
      by rewrite _filter_cons, Hf.
  - split_and!.
    + by rewrite _filter_cons, Hg, IH1.
    + intros Hf. change ((g :: l1) ++ f :: l2) with (g :: (l1 ++ f :: l2)).
      by rewrite _filter_cons, Hg, (IH2 Hf).
    + intros e Hf. change ((g :: l1) ++ f :: l2) with (g :: (l1 ++ f :: l2)).
      by rewrite _filter_cons, Hg, (IH3 e Hf).
Qed.

Lemma _filter_total filters tgt w v text opts :
  Forall (λ f, ∃ b, filter (heap rt f) tgt w v text opts = Ok b) filters →
  outcome (_filter rt filters tgt w v text opts)
  = Ok (forallb (λ f, accepts (filter (heap rt f) tgt w v text opts))
                filters).
Proof.
  induction 1 as [|f filters [b Hb] _ IH]; [done|]. simpl.
  rewrite bind_outcome. unfold call_filter. rewrite bind_outcome. simpl.
  rewrite Hb. destruct b; simpl; [|done].
  by rewrite IH.
Qed.

(** X5. When no filter of the chain raises on a suggestion, the chain
    answers, and it keeps the suggestion exactly when every filter keeps
    it. The answer then does not depend on the order of the chain: the
    priorities decide which filters get called, not what [_filter]
    returns. *)
Theorem filter_chain_is_a_conjunction filters filters' tgt w v text opts :
  Forall (λ f, ∃ b, filter (heap rt f) tgt w v text opts = Ok b) filters →
  (outcome (_filter rt filters tgt w v text opts) = Ok true
   ↔ Forall (λ f, filter (heap rt f) tgt w v text opts = Ok true) filters)
  ∧ (∃ b, outcome (_filter rt filters tgt w v text opts) = Ok b)
  ∧ (filters ≡ₚ filters' →
     outcome (_filter rt filters' tgt w v text opts)
     = outcome (_filter rt filters tgt w v text opts)).
Proof.
  intros Htot. rewrite (_filter_total _ _ _ _ _ _ Htot). split_and!.
  - split.
    + intros [= Hall]. apply Is_true_true, forallb_True in Hall.
      eapply Forall_impl; [done|]. intros f Hf. simpl in Hf.
      by destruct (filter (heap rt f) tgt w v text opts) as [[]|].
    + intros Hall. f_equal. apply Is_true_true, forallb_True.
      eapply Forall_impl; [done|]. intros f Hf. simpl. by rewrite Hf.
  - by eexists.
  - intros Hperm. rewrite _filter_total by (by rewrite <-Hperm).
    f_equal. clear Htot.
    induction Hperm as [|x l l' _ IH|x y l|l l' l'' _ IH1 _ IH2]; simpl.
    + done.
    + by rewrite IH.
    + by rewrite !andb_assoc,
        (andb_comm (accepts (filter (heap rt x) tgt w v text opts))).
    + by rewrite <-IH1.
Qed.

Lemma _filter_accepting filters tgt w v text opts :
  Forall (λ f, ∀ tgt w v text opts,
            filter (heap rt f) tgt w v text opts = Ok true) filters →
  outcome (_filter rt filters tgt w v text opts) = Ok true.
Proof.
  induction 1 as [|f filters Hf _ IH]; [done|]. simpl.
  rewrite bind_outcome. unfold call_filter. rewrite bind_outcome. simpl.
  by rewrite Hf.
Qed.
End ChainFacts.

(** ** The names that [global_matches] offers *)

Section NamespaceFacts.
Context (rt : runtime).

(** A key that starts with [text], was not seen and is accepted by the
    chain is among the candidates of the pass, with the postfix of its
    value. *)
Lemma namespace_loop_complete self text nspace its m s t m' s' w v :
  namespace_loop rt self text nspace its m s = (t, Ok (m', s')) →
  assoc w its = Some v → is_prefix text w → w ∉ s →
  outcome (filter_namespace rt self nspace w v text no_options) = Ok true →
  ∃ c, _callable_postfix v w = ([], Ok c) ∧ c ∈ m'.
Proof.
  revert m s t. induction its as [|[word value] its IH]; intros m s t Hloop;
    simpl in Hloop; [done|]. simpl.
  destruct (String.eqb_spec word w) as [->|Hne].
  - intros [= ->] Hpre Hnin Hacc.
    rewrite (bool_decide_eq_true_2 (slice_to _ _ = _)) in Hloop
      by (by apply slice_to_prefix).
    rewrite (bool_decide_eq_false_2 (w ∈ s)) in Hloop by done. simpl in Hloop.
    apply bind_Ok in Hloop as (t1 & keep & t2 & Hf & Hrest & ->).
    rewrite Hf in Hacc. injection Hacc as ->.
    apply bind_Ok in Hrest as (t3 & c & t4 & Hc & Hrest & ->).
    destruct (_callable_postfix_Ok _ _ _ _ Hc) as [-> _].
    apply namespace_loop_spec in Hrest as (bs & cs & -> & _).
    exists c. split; [done|]. set_solver.
  - intros Hw Hpre Hnin Hacc.
    destruct (bool_decide (slice_to (String.length text) word = text)
              && negb (bool_decide (word ∈ s))) eqn:Hsel.
    + apply bind_Ok in Hloop as (t1 & keep & t2 & Hf & Hrest & ->).
      destruct keep.
      * apply bind_Ok in Hrest as (t3 & c & t4 & Hc & Hrest & ->).
        eapply IH; [done..| |done]. set_solver.
      * eapply IH; [done..| |done]. set_solver.
    + by eapply IH.
Qed.

Lemma namespace_loop_mono self text nspace its m s t m' s' :
  namespace_loop rt self text nspace its m s = (t, Ok (m', s')) →
  m ⊆ m'.
Proof.
  intros (bs & cs & -> & _)%namespace_loop_spec. set_solver.
Qed.

(** The candidates of a pass come in the order of the items. *)
Lemma namespace_loop_order self text nspace its m s t m' s' :
  namespace_loop rt self text nspace its m s = (t, Ok (m', s')) →
  ∃ bases cands,
    m' = m ++ cands ∧ Forall2 postfixed bases cands
    ∧ bases `sublist_of` its.*1.
Proof.
  revert m s t. induction its as [|[word value] its IH]; intros m s t Hloop;
    simpl in Hloop; revert Hloop.
  { intros [= <- <- <-]. exists [], []. by rewrite app_nil_r. }
  destruct (bool_decide (slice_to (String.length text) word = text)
            && negb (bool_decide (word ∈ s))).
  - intros (t1 & keep & t2 & Hf & Hrest & ->)%bind_Ok.
    destruct keep.
    + apply bind_Ok in Hrest as (t3 & c & t4 & Hc & Hrest & ->).
      apply _callable_postfix_Ok in Hc as [_ Hc].
      apply IH in Hrest as (bases & cands & -> & H2 & Hsub).
      exists (word :: bases), (c :: cands). rewrite <-(assoc_L (++)).
      split_and!; [done|by constructor|by constructor].
    + apply IH in Hrest as (bases & cands & -> & H2 & Hsub).
      exists bases, cands. split_and!; [done..|by constructor].
  - intros (bases & cands & -> & H2 & Hsub)%IH.
    exists bases, cands. split_and!; [done..|by constructor].
Qed.

(** The two passes of a call of [global_matches] that returns. *)
Lemma global_matches_passes self text ns d ms :
  namespace self = Some ns → ns = ScopeDict d ∨ ns = ScopeMapping d →
  outcome (global_matches rt self text) = Ok ms →
  ∃ t1 m1 s1 t2 s2,
    namespace_loop rt self text ns d (keyword_matches rt text)
      (list_to_set (selected text (keywords rt)) ∪ {["__builtins__"]})
    = (t1, Ok (m1, s1))
    ∧ namespace_loop rt self text (ScopeDict (builtins_dict rt))
        (builtins_dict rt) m1 s1
      = (t2, Ok (ms, s2)).
Proof.
  intros Hns Hd Hout.
  pose proof (M_eta (global_matches rt self text)) as Heta.
  rewrite Hout in Heta. unfold global_matches in Heta.
  rewrite keyword_loop_eq in Heta. cbv beta iota zeta in Heta.
  fold (keywords rt) in Heta.
  apply bind_Ok in Heta as (t1 & ns' & t2 & Hget & Heta & _).
  unfold get_namespace in Hget. rewrite Hns in Hget. injection Hget as _ <-.
  apply bind_Ok in Heta as (t3 & st & t4 & Hloops & [= _ <-] & _).
  simpl in Hloops.
  apply bind_Ok in Hloops as (t5 & its & t6 & Hits & Hloops & _).
  assert (its = d) as ->.
  { destruct Hd as [-> | ->]; simpl in Hits; by injection Hits. }
  apply bind_Ok in Hloops as (t7 & [m1 s1] & t8 & Hl1 & Hloops & _).
  simpl in Hloops.
  apply bind_Ok in Hloops as (t9 & its2 & t10 & [= _ <-] & Hloops & _).
  apply bind_Ok in Hloops as (t11 & [m2 s2] & t12 & Hl2 & [= _ <-] & _).
  simpl. by exists t7, m1, s1, t11, s2.
Qed.

(** X6. [global_matches] leaves out no name that the chain accepts: when
    it returns, a key of the namespace that starts with [text], is no
    keyword and is not ["__builtins__"], and that the namespace filters
    accept, is in the result with the postfix of its value in the
    namespace; and so is a built-in of that kind which the namespace does
    not define, with the postfix of the built-in. *)
Theorem global_matches_offers_accepted_names self text ns d ms :
  namespace self = Some ns → ns = ScopeDict d ∨ ns = ScopeMapping d →
  outcome (global_matches rt self text) = Ok ms →
  (∀ w v,
     assoc w d = Some v → is_prefix text w →
     w ∉ keywords rt → w ≠ "__builtins__" →
     outcome (filter_namespace rt self ns w v text no_options) = Ok true →
     ∃ c, _callable_postfix v w = ([], Ok c) ∧ c ∈ ms)
  ∧ (∀ w v,
       assoc w (builtins_dict rt) = Some v → is_prefix text w →
       w ∉ keywords rt → w ≠ "__builtins__" → w ∉ d.*1 →
       outcome (filter_namespace rt self (ScopeDict (builtins_dict rt)) w v
                  text no_options) = Ok true →
       ∃ c, _callable_postfix v w = ([], Ok c) ∧ c ∈ ms).
Proof.
  intros Hns Hd Hout.
  destruct (global_matches_passes self text ns d ms Hns Hd Hout)
    as (t1 & m1 & s1 & t2 & s2 & Hl1 & Hl2).
  assert (∀ w, w ∉ keywords rt → w ≠ "__builtins__" →
            w ∉ (list_to_set (selected text (keywords rt)) ∪ {["__builtins__"]}
                 : gset string)) as Hseen.
  { intros w Hkw Hb. rewrite elem_of_union, elem_of_list_to_set,
      elem_of_singleton. intros [Hin|?]; [|done].
    apply Hkw. unfold selected in Hin.
    by apply list_elem_of_filter in Hin as [_ ?]. }
  split.
  - intros w v Hw Hpre Hkw Hb Hacc.
    destruct (namespace_loop_complete _ _ _ _ _ _ _ _ _ w v Hl1 Hw Hpre
                (Hseen w Hkw Hb) Hacc) as (c & Hc & Hin).
    exists c. split; [done|]. by eapply namespace_loop_mono.
  - intros w v Hw Hpre Hkw Hb Hnd Hacc.
    eapply namespace_loop_complete; [done..| |done].
    apply namespace_loop_spec in Hl1 as (_ & _ & _ & _ & _ & _ & _ & Hs1 & _).
    intros [Hin|Hin]%Hs1; [by apply (Hseen w)|done].
Qed.

(** X7. [global_matches] does not sort: its result is the keywords that
    match in the order of [kwlist + softkwlist], then candidates of keys
    of the namespace in the order of the namespace, then candidates of
    built-ins in the order of [builtins.__dict__]. *)
Theorem global_matches_keeps_source_order self text ms :
  outcome (global_matches rt self text) = Ok ms →
  ∃ d kws names builtin_names cands1 cands2,
    (namespace self = Some (ScopeDict d)
     ∨ namespace self = Some (ScopeMapping d))
    ∧ ms = (keyword_word <$> kws) ++ cands1 ++ cands2
    ∧ kws `sublist_of` kwlist rt ++ softkwlist rt
    ∧ Forall2 postfixed names cands1 ∧ names `sublist_of` d.*1
    ∧ Forall2 postfixed builtin_names cands2
    ∧ builtin_names `sublist_of` (builtins_dict rt).*1.
Proof.
  intros Hout.
  assert (∃ ns d, namespace self = Some ns
                  ∧ (ns = ScopeDict d ∨ ns = ScopeMapping d))
    as (ns & d & Hns & Hd).
  { pose proof (M_eta (global_matches rt self text)) as Heta.
    rewrite Hout in Heta.
    apply global_matches_spec in Heta as (ns & d & _ & _ & _ & _ & ? & ? & _).
    by exists ns, d. }
  destruct (global_matches_passes self text ns d ms Hns Hd Hout)
    as (t1 & m1 & s1 & t2 & s2 & Hl1 & Hl2).
  apply namespace_loop_order in Hl1 as (b1 & c1 & -> & H1 & Hs1).
  apply namespace_loop_order in Hl2 as (b2 & c2 & -> & H2 & Hs2).
  exists d, (selected text (kwlist rt ++ softkwlist rt)), b1, b2, c1, c2.
  split_and!; [|by rewrite <-(assoc_L (++))| |done..].
  - rewrite Hns. destruct Hd as [-> | ->]; auto.
  - unfold selected. apply sublist_filter.
Qed.
End NamespaceFacts.

(** ** The members that [attr_matches] looks at *)

Lemma pyclass_bases_ind (P : pyclass → Prop) :
  (∀ n d a bs, Forall P bs → P (Class n d a bs)) → ∀ k, P k.
Proof.
  intros H. fix IH 1. intros [n d a bs]. apply H.
  induction bs as [|b bs IHbs]; constructor; [apply IH|apply IHbs].
Qed.

Lemma _iter_class_members_eq k :
  _iter_class_members k
  = cls_dir k ++ flat_map _iter_class_members (cls_bases k).
Proof. by destruct k. Qed.

Lemma _iter_class_members_in_mro klass w :
  w ∈ _iter_class_members klass ↔ ∃ a, in_mro a klass ∧ w ∈ cls_dir a.
Proof.
  split.
  - revert klass. refine (pyclass_bases_ind _ _). intros n d a bs IH.
    rewrite _iter_class_members_eq. simpl.
    rewrite elem_of_app, flat_map_elem_of. intros [Hd|(b & Hb & Hw)].
    + exists (Class n d a bs). split; [constructor|done].
    + rewrite Forall_forall in IH. destruct (IH b Hb Hw) as (c & Hc & Hwc).
      exists c. split; [|done]. by eapply in_mro_base.
  - intros (a & Hmro & Hw). induction Hmro as [|k b Hb _ IH].
    + rewrite _iter_class_members_eq. apply elem_of_app. by left.
    + rewrite _iter_class_members_eq. apply elem_of_app. right.
      apply flat_map_elem_of. eauto.
Qed.

(** X8. [get_class_members] lists what [dir] gives for the class and for
    every class that is reached through [__bases__], and nothing else;
    it starts with the names of the class itself and keeps a name once for
    each way it is reached, so that its length is the sum over the class
    and the lists of its bases. *)
Theorem class_members_cover_the_bases klass :
  (∀ w, w ∈ get_class_members klass
        ↔ ∃ a, in_mro a klass ∧ w ∈ cls_dir a)
  ∧ (∃ rest, get_class_members klass = cls_dir klass ++ rest)
  ∧ length (get_class_members klass)
    = (length (cls_dir klass)
       + sum_list (length ∘ get_class_members <$> cls_bases klass))%nat.
Proof.
  unfold get_class_members. split_and!.
  - intros w. apply _iter_class_members_in_mro.
  - rewrite _iter_class_members_eq. by eexists.
  - rewrite _iter_class_members_eq, length_app. f_equal.
    induction (cls_bases klass) as [|b bs IH]; [done|].
    simpl. rewrite length_app, IH. done.
Qed.

(** X9. The words that [attr_matches] goes through, when the accesses of
    [__class__] let it build them, are the names of [dir(thisobject)]
    other than ["__builtins__"] and, for an object whose [__class__] can
    be read, also ["__class__"] and the names of the class and of all the
    classes reached through [__bases__]; a ["__builtins__"] that comes
    from the class is not discarded. The words are built unless the
    access of [__class__] raises something other than an
    [AttributeError], which then leaves [attr_matches]. *)
Theorem attr_words_are_the_members thisobject :
  (∀ words w,
     outcome (attr_words thisobject) = Ok words →
     w ∈ words
     ↔ (w ∈ dir thisobject ∧ w ≠ "__builtins__")
       ∨ ∃ klass, outcome (getattr_class thisobject) = Ok klass
           ∧ (w = "__class__" ∨ ∃ a, in_mro a klass ∧ w ∈ cls_dir a))
  ∧ (∀ e, outcome (getattr_class thisobject) = Raise e →
       outcome (attr_words thisobject)
       = if issubclass e AttributeError
         then Ok (list_to_set (dir thisobject) ∖ {["__builtins__"]})
         else Raise e)
  ∧ (∀ klass, outcome (getattr_class thisobject) = Ok klass →
       ∃ words, outcome (attr_words thisobject) = Ok words).
Proof.
  rewrite attr_words_eq.
  destruct (outcome (getattr_class thisobject)) as [klass|e]; simpl;
    split_and!; try done.
  - intros words w [= <-].
    rewrite !elem_of_union, elem_of_difference, !elem_of_list_to_set,
      !elem_of_singleton, _iter_class_members_in_mro. split.
    + intros [[->|?]|?]; [right|by left|right]; exists klass; auto.
    + intros [?|(k & [= <-] & [->|?])]; auto.
  - by eexists.
  - intros words w.
    destruct (issubclass e AttributeError); [|done]. intros [= <-].
    rewrite elem_of_difference, elem_of_list_to_set, elem_of_singleton.
    split; [by left|]. by intros [?|(k & ? & _)].
  - by intros e' [= <-].
Qed.

(** ** The candidates of [attr_matches] *)

Lemma word_selected_prefix attr noprefix word :
  word_selected attr noprefix word = true → is_prefix attr word.
Proof.
  unfold word_selected. intros [H _]%andb_prop.
  by apply bool_decide_eq_true_1, slice_to_prefix in H.
Qed.

(** Under the rule that hides [attr] followed by an underscore, a selected
    word does not start that way. *)
Lemma word_selected_hidden attr word :
  word_selected attr (Some (attr +:+ "_")) word = true →
  is_prefix attr word ∧ ¬ is_prefix (attr +:+ "_") word.
Proof.
  intros Hsel. split; [by eapply word_selected_prefix|].
  unfold word_selected in Hsel. apply andb_prop in Hsel as [_ Hsel].
  apply negb_true_iff, andb_false_iff in Hsel as [Hsel|Hsel].
  { by destruct attr. }
  apply bool_decide_eq_false_1 in Hsel. intros Hpre. apply Hsel. f_equal.
  apply slice_to_prefix in Hpre. rewrite str_length_app in Hpre. done.
Qed.

(** A word that one rule selects and this rule does not starts with
    [attr] followed by an underscore. *)
Lemma word_selected_shown attr np w :
  word_selected attr np w = true →
  word_selected attr (Some (attr +:+ "_")) w = false →
  is_prefix (attr +:+ "_") w.
Proof.
  intros Hsel Hhid. apply word_selected_prefix in Hsel.
  unfold word_selected in Hhid.
  rewrite (bool_decide_eq_true_2 (slice_to _ _ = attr)) in Hhid
    by (by apply slice_to_prefix).
  simpl in Hhid. apply negb_false_iff, andb_prop in Hhid as [_ Hhid].
  apply bool_decide_eq_true_1 in Hhid. injection Hhid as Hhid.
  apply slice_to_prefix. rewrite str_length_app. simpl. done.
Qed.

Lemma initial_noprefix_hides attr :
  attr = "" ∨ attr = "_" → initial_noprefix attr = Some (attr +:+ "_").
Proof. by intros [-> | ->]. Qed.




Section ScanFacts.
Context (rt : runtime).

Lemma attr_candidate_spec self text expr attr thisobject thistype noprefix w
    c :
  outcome (attr_candidate rt self text expr attr thisobject thistype noprefix
             w) = Ok (Some c) →
  word_selected attr noprefix w = true ∧ postfixed (expr +:+ "." +:+ w) c.
Proof.
  destruct (attr_candidate rt self text expr attr thisobject thistype
              noprefix w) as [t r] eqn:H.
  simpl. intros ->. revert H. unfold attr_candidate.
  destruct (word_selected attr noprefix w); [|done]. intros H. split; [done|].
  destruct (is_property thistype w).
  - apply bind_Ok in H as (t1 & keep & t2 & _ & H & _).
    destruct keep; [|done]. injection H as _ <-. by left.
  - apply bind_Ok in H as (t1 & value & t2 & _ & H & _).
    apply bind_Ok in H as (t3 & keep & t4 & _ & H & _).
    destruct keep; [|done]. simpl in H.
    destruct (is_none value); simpl in H; [by injection H as _ <-; left|].
    apply bind_Ok in H as (t5 & m & t6 & Hm & [= _ <-] & _).
    by apply _callable_postfix_Ok in Hm as [_ ?].
Qed.

(** Once a word is selected, the rule plays no part in its candidate. *)
Lemma attr_candidate_rule self text expr attr thisobject thistype np np' w :
  word_selected attr np w = true → word_selected attr np' w = true →
  attr_candidate rt self text expr attr thisobject thistype np w
  = attr_candidate rt self text expr attr thisobject thistype np' w.
Proof. unfold attr_candidate. by intros -> ->. Qed.

(** A pass appends the candidates of the words, in their order. *)
Lemma words_loop_omap self text expr attr thisobject thistype noprefix ws m t
    m' :
  words_loop rt self text expr attr thisobject thistype noprefix ws m
  = (t, Ok m') →
  m' = m ++ omap (λ w,
                match outcome (attr_candidate rt self text expr attr
                                 thisobject thistype noprefix w) with
                | Ok c => c
                | Raise _ => None
                end) ws.
Proof.
  revert m t. induction ws as [|w ws IH]; intros m t; simpl.
  { intros [= <- <-]. by rewrite app_nil_r. }
  intros (t1 & c & t2 & Hc & Hrest & ->)%bind_Ok.
  apply IH in Hrest as ->. rewrite Hc. simpl.
  destruct c as [c|]; simpl; [by rewrite <-(assoc_L (++))|by rewrite app_nil_r].
Qed.

Lemma words_loop_outcomes self text expr attr thisobject thistype noprefix ws m
    t m' :
  words_loop rt self text expr attr thisobject thistype noprefix ws m
  = (t, Ok m') →
  ∃ sel cands,
    m' = m ++ cands
    ∧ Forall2 (λ w c,
         outcome (attr_candidate rt self text expr attr thisobject thistype
                    noprefix w) = Ok (Some c)) sel cands
    ∧ sel `sublist_of` ws
    ∧ (cands = [] →
       Forall (λ w,
         outcome (attr_candidate rt self text expr attr thisobject thistype
                    noprefix w) = Ok None) ws).
Proof.
  revert m t. induction ws as [|w ws IH]; intros m t; simpl.
  { intros [= <- <-]. exists [], []. by rewrite app_nil_r. }
  intros (t1 & c & t2 & Hc & Hrest & ->)%bind_Ok.
  apply IH in Hrest as (sel & cands & -> & H2 & Hsub & Hnone).
  destruct c as [c|]; simpl.
  - exists (w :: sel), (c :: cands). rewrite <-(assoc_L (++)).
    split_and!; [done| |by constructor|done].
    constructor; [by rewrite Hc|done].
  - exists sel, cands. rewrite app_nil_r.
    split_and!; [done..|by constructor|].
    intros ->. constructor; [by rewrite Hc|by apply Hnone].
Qed.

(** What the loop returns comes from one pass, under one rule; when that
    is not the rule the loop started with, the pass under the first rule
    gave no candidate at all. *)
Lemma relax_loop_outcomes fuel self text expr attr thisobject thistype words
    noprefix m t ms :
  relax_loop rt fuel self text expr attr thisobject thistype words noprefix m
  = (t, Ok ms) →
  ∃ np sel cands,
    ms = m ++ cands
    ∧ Forall2 (λ w c,
         outcome (attr_candidate rt self text expr attr thisobject thistype
                    np w) = Ok (Some c)) sel cands
    ∧ sel `sublist_of` elements words
    ∧ (np = noprefix
       ∨ m = []
         ∧ Forall (λ w,
             outcome (attr_candidate rt self text expr attr thisobject
                        thistype noprefix w) = Ok None) (elements words)).
Proof.
  revert noprefix m t. induction fuel as [|fuel IH]; intros noprefix m t; simpl.
  { intros [= <- <-]. exists noprefix, [], []. rewrite app_nil_r.
    split_and!; [done|constructor|apply sublist_nil_l|by left]. }
  intros (t1 & m1 & t2 & Hpass & Hrest & ->)%bind_Ok.
  apply words_loop_outcomes in Hpass as (sel & cands & -> & H2 & Hsub & Hnone).
  destruct (negb (bool_decide (m ++ cands = []))
            || negb (noprefix_truthy noprefix)) eqn:Hexit.
  - injection Hrest as <- <-. exists noprefix, sel, cands.
    by split_and!; [..|left].
  - apply orb_false_iff in Hexit as [Hnil%negb_false_iff%bool_decide_eq_true_1 _].
    apply app_eq_nil in Hnil as [-> ->].
    apply IH in Hrest as (np & sel' & cands' & -> & H2' & Hsub' & _).
    exists np, sel', cands'. split_and!; [done..|]. right. split; [done|].
    by apply Hnone.
Qed.

(** What [attr_scan] returns: the sorted candidates of one pass over the
    words. *)
Lemma attr_scan_outcomes self text expr attr thisobject ms :
  outcome (attr_scan rt self text expr attr thisobject) = Ok ms →
  ∃ words np sel cands,
    outcome (attr_words thisobject) = Ok words
    ∧ ms = sort cands
    ∧ Forall2 (λ w c,
         outcome (attr_candidate rt self text expr attr thisobject
                    (type_of thisobject) np w) = Ok (Some c)) sel cands
    ∧ sel `sublist_of` elements words
    ∧ (np = initial_noprefix attr
       ∨ Forall (λ w,
           outcome (attr_candidate rt self text expr attr thisobject
                      (type_of thisobject) (initial_noprefix attr) w)
           = Ok None) (elements words)).
Proof.
  intros Hout.
  pose proof (M_eta (attr_scan rt self text expr attr thisobject)) as Heta.
  rewrite Hout in Heta. unfold attr_scan in Heta.
  apply bind_Ok in Heta as (t0 & words & t0' & Hwords & Heta & _).
  apply bind_Ok in Heta as (t1 & raw & t2 & Hloop & [= _ <-] & _).
  apply relax_loop_outcomes in Hloop
    as (np & sel & cands & -> & H2 & Hsub & Hnp).
  exists words, np, sel, cands. rewrite Hwords. split_and!; [done..|].
  destruct Hnp as [?|[_ ?]]; auto.
Qed.

(** X10. The list that the scan of the members returns is sorted, and
    each of its entries starts with [expr.attr]: it is [expr.word] for a
    word of the object that starts with [attr], as it is or followed by
    an opening parenthesis or by a pair of them, and no word is used
    twice. *)
Theorem attr_candidates_sorted_and_prefixed self text expr attr thisobject ms :
  outcome (attr_scan rt self text expr attr thisobject) = Ok ms →
  StronglySorted String.le ms
  ∧ Forall (is_prefix (expr +:+ "." +:+ attr)) ms
  ∧ ∃ words sel cands,
      outcome (attr_words thisobject) = Ok words
      ∧ ms ≡ₚ cands
      ∧ Forall2 (λ w c, postfixed (expr +:+ "." +:+ w) c) sel cands
      ∧ NoDup sel
      ∧ Forall (λ w, w ∈ words ∧ is_prefix attr w) sel.
Proof.
  intros (words & np & sel & cands & Hwords & -> & H2 & Hsub & _)
    %attr_scan_outcomes.
  assert (Forall2 (λ w c, is_prefix attr w
                          ∧ postfixed (expr +:+ "." +:+ w) c) sel cands)
    as H2'.
  { eapply Forall2_impl; [done|]. intros w c Hc.
    apply attr_candidate_spec in Hc as [Hsel Hc].
    split; [by eapply word_selected_prefix|done]. }
  unfold sort. split_and!.
  - apply StronglySorted_merge_sort; apply _.
  - rewrite merge_sort_Permutation.
    clear -H2'. induction H2' as [|w c sel cands [Hp Hc] _ IH]; [constructor|].
    constructor; [|done].
    eapply postfixed_prefix; [|done]. by apply is_prefix_app_l, is_prefix_app_l.
  - exists words, sel, cands.
    split_and!; [done|apply merge_sort_Permutation| | |].
    + eapply Forall2_impl; [done|]. by intros w c [_ ?].
    + eapply sublist_NoDup; [|done]. apply NoDup_elements.
    + apply Forall2_exists_l in H2'. rewrite Forall_forall in H2'.
      apply Forall_forall. intros w Hin. split.
      * apply elem_of_elements. by eapply elem_of_sublist.
      * by destruct (H2' w Hin) as [c [? _]].
Qed.

(** X11. When the first pass over the words gives a candidate, the scan
    returns the candidates of that pass, sorted, and nothing else: every
    word whose candidate the first pass accepts is in the result. *)
Theorem attr_scan_offers_accepted_members self text expr attr thisobject ms
    words w c :
  outcome (attr_scan rt self text expr attr thisobject) = Ok ms →
  outcome (attr_words thisobject) = Ok words →
  w ∈ words →
  first_pass_candidate rt self text expr attr thisobject w = Some c →
  c ∈ ms
  ∧ ms = sort (omap (first_pass_candidate rt self text expr attr thisobject)
                    (elements words)).
Proof.
  intros Hout Hwords Hw Hc.
  pose proof (M_eta (attr_scan rt self text expr attr thisobject)) as Heta.
  rewrite Hout in Heta. unfold attr_scan in Heta.
  apply bind_Ok in Heta as (t0 & words' & t0' & Hwords' & Heta & _).
  rewrite Hwords' in Hwords. injection Hwords as ->.
  apply bind_Ok in Heta as (t1 & raw & t2 & Hloop & [= _ <-] & _).
  change (relax_loop rt 3) with (relax_loop rt (S 2)) in Hloop.
  simpl in Hloop.
  apply bind_Ok in Hloop as (t3 & m1 & t4 & Hpass & Hrest & _).
  apply words_loop_omap in Hpass. simpl in Hpass.
  fold (first_pass_candidate rt self text expr attr thisobject) in Hpass.
  assert (c ∈ m1) as Hin.
  { subst m1. apply list_elem_of_omap. exists w.
    split; [by apply elem_of_elements|done]. }
  rewrite (bool_decide_eq_false_2 (m1 = [])) in Hrest
    by (intros ->; by apply elem_of_nil in Hin).
  simpl in Hrest. injection Hrest as _ <-.
  split; [|by rewrite Hpass].
  unfold sort. by rewrite merge_sort_Permutation.
Qed.

(** X12. For an empty [attr] or the [attr] ["_"], the result never mixes
    the two kinds of members: either every word behind it starts with
    [attr] and not with [attr] followed by an underscore, or every word
    behind it starts with [attr] followed by an underscore, and then the
    first pass gave no candidate for any word. *)
Theorem attr_matches_never_mix_public_and_private self text expr attr
    thisobject ms :
  attr = "" ∨ attr = "_" →
  outcome (attr_scan rt self text expr attr thisobject) = Ok ms →
  ∃ words sel cands,
    outcome (attr_words thisobject) = Ok words
    ∧ ms ≡ₚ cands
    ∧ Forall2 (λ w c, postfixed (expr +:+ "." +:+ w) c) sel cands
    ∧ (Forall (λ w, is_prefix attr w ∧ ¬ is_prefix (attr +:+ "_") w) sel
       ∨ Forall (is_prefix (attr +:+ "_")) sel
         ∧ Forall (λ w,
             first_pass_candidate rt self text expr attr thisobject w = None)
             (elements words)).
Proof.
  intros Hattr%initial_noprefix_hides
    (words & np & sel & cands & Hwords & -> & H2 & Hsub & Hnp)
    %attr_scan_outcomes.
  rewrite Hattr in Hnp.
  exists words, sel, cands.
  split_and!; [done|apply merge_sort_Permutation| |].
  { eapply Forall2_impl; [done|]. intros w c Hc.
    by apply attr_candidate_spec in Hc as [_ ?]. }
  apply Forall2_exists_l in H2. rewrite Forall_forall in H2.
  destruct Hnp as [->|Hnone]; [left|right; split].
  - apply Forall_forall. intros w Hin.
    destruct (H2 w Hin) as [c [Hsel _]%attr_candidate_spec].
    by apply word_selected_hidden.
  - apply Forall_forall. intros w Hin.
    destruct (H2 w Hin) as [c Hc].
    pose proof Hc as [Hsel _]%attr_candidate_spec.
    apply (word_selected_shown attr np); [done|].
    destruct (word_selected attr (Some (attr +:+ "_")) w) eqn:Hfirst; [|done].
    rewrite Forall_forall in Hnone.
    assert (w ∈ elements words) as Hw by (by eapply elem_of_sublist).
    apply Hnone in Hw.
    rewrite (attr_candidate_rule _ _ _ _ _ _ _ np) in Hw by done. congruence.
  - eapply Forall_impl; [done|]. intros w Hw.
    unfold first_pass_candidate. by rewrite Hattr, Hw.
Qed.








Lemma words_loop_raises self text expr attr thisobject thistype noprefix ws m
    w e :
  w ∈ ws →
  outcome (attr_candidate rt self text expr attr thisobject thistype noprefix w)
  = Raise e →
  ∃ e', outcome (words_loop rt self text expr attr thisobject thistype
                   noprefix ws m) = Raise e'.
Proof.
  intros Hin Hw. revert m. induction ws as [|w' ws IH]; intros m.
  { by apply elem_of_nil in Hin. }
  simpl. rewrite bind_outcome.
  destruct (outcome (attr_candidate _ _ _ _ _ _ _ _ w')) as [c|e'] eqn:Hc;
    [|by eexists].
  apply elem_of_cons in Hin as [->|Hin]; [congruence|]. by apply IH.
Qed.

(** X14. A member whose access raises something other than an
    [AttributeError] makes the scan fail: when such a word is among the
    words, is selected in the first pass and is no property of the type,
    its read raises out of the loop body before any filter is called on
    it, and the scan ends with an exception instead of a list. *)
Theorem broken_member_aborts_the_scan self text expr attr thisobject w e :
  (∀ words, outcome (attr_words thisobject) = Ok words → w ∈ words) →
  word_selected attr (initial_noprefix attr) w = true →
  is_property (type_of thisobject) w = false →
  assoc w (attrs thisobject) = Some (Raise e) →
  issubclass e AttributeError = false →
  attr_candidate rt self text expr attr thisobject (type_of thisobject)
    (initial_noprefix attr) w
  = ([EvGetattr thisobject w], Raise e)
  ∧ ∃ e', outcome (attr_scan rt self text expr attr thisobject) = Raise e'.
Proof.
  intros Hin Hsel Hp Hread Hsub.
  assert (attr_candidate rt self text expr attr thisobject (type_of thisobject)
            (initial_noprefix attr) w
          = ([EvGetattr thisobject w], Raise e)) as Hc.
  { unfold attr_candidate. rewrite Hsel, Hp.
    unfold getattr_default, getattr. rewrite Hp, Hread.
    unfold try_except, tell, lift. rewrite bind_pair_Ok, bind_ret_l.
    simpl. by rewrite Hsub. }
  split; [done|].
  unfold attr_scan. rewrite bind_outcome.
  destruct (outcome (attr_words thisobject)) as [words|e0] eqn:Hwords;
    [|by exists e0].
  rewrite bind_outcome.
  change (relax_loop rt 3) with (relax_loop rt (S 2)). simpl.
  rewrite bind_outcome.
  destruct (words_loop_raises self text expr attr thisobject
              (type_of thisobject) (initial_noprefix attr)
              (elements words) [] w e) as [e' ->].
  - apply elem_of_elements. by apply Hin.
  - by rewrite Hc.
  - by exists e'.
Qed.
End ScanFacts.

(** ** Filters and the results of [get_matches] *)

Section VerdictFacts.
Context (rt : runtime).

Section SameVerdicts.
Context (self self' : Completer).
Hypothesis same_namespace : namespace self' = namespace self.
Hypothesis same_namespace_verdicts : ∀ nspace w v text opts,
  outcome (filter_namespace rt self' nspace w v text opts)
  = outcome (filter_namespace rt self nspace w v text opts).
Hypothesis same_attribute_verdicts : ∀ o w v text opts,
  outcome (filter_attribute rt self' o w v text opts)
  = outcome (filter_attribute rt self o w v text opts).

Lemma namespace_loop_same text nspace its m s :
  outcome (namespace_loop rt self' text nspace its m s)
  = outcome (namespace_loop rt self text nspace its m s).
Proof.
  revert m s. induction its as [|[word value] its IH]; intros m s; simpl;
    [done|].
  destruct (_ && _); [|apply IH].
  rewrite !bind_outcome, same_namespace_verdicts.
  destruct (outcome (filter_namespace rt self _ _ _ _ _)) as [[]|];
    [|apply IH|done].
  rewrite !bind_outcome.
  destruct (outcome (_callable_postfix _ _)); [apply IH|done].
Qed.

Lemma nspaces_loop_same text nspaces m s :
  outcome (nspaces_loop rt self' text nspaces m s)
  = outcome (nspaces_loop rt self text nspaces m s).
Proof.
  revert m s. induction nspaces as [|nspace nspaces IH]; intros m s; simpl;
    [done|].
  rewrite !bind_outcome. destruct (outcome (items nspace)) as [its|]; [|done].
  rewrite !bind_outcome, namespace_loop_same.
  destruct (outcome (namespace_loop rt self _ _ _ _ _)) as [st|];
    [apply IH|done].
Qed.

Lemma global_matches_same text :
  outcome (global_matches rt self' text)
  = outcome (global_matches rt self text).
Proof.
  unfold global_matches. rewrite keyword_loop_eq. cbv beta iota zeta.
  rewrite !bind_outcome. unfold get_namespace. rewrite same_namespace.
  destruct (namespace self) as [ns|]; [|done].
  change (outcome (mret ns)) with (Ok ns : result scope). cbv beta iota.
  rewrite !bind_outcome, nspaces_loop_same. done.
Qed.

Lemma attr_candidate_same text expr attr thisobject thistype noprefix w :
  outcome (attr_candidate rt self' text expr attr thisobject thistype noprefix
             w)
  = outcome (attr_candidate rt self text expr attr thisobject thistype
               noprefix w).
Proof.
  unfold attr_candidate. destruct (word_selected _ _ _); [|done].
  destruct (is_property _ _).
  - by rewrite !bind_outcome, same_attribute_verdicts.
  - rewrite !bind_outcome. destruct (outcome (getattr_default _ _ _)); [|done].
    by rewrite !bind_outcome, same_attribute_verdicts.
Qed.

Lemma words_loop_same text expr attr thisobject thistype noprefix ws m :
  outcome (words_loop rt self' text expr attr thisobject thistype noprefix ws
             m)
  = outcome (words_loop rt self text expr attr thisobject thistype noprefix
               ws m).
Proof.
  revert m. induction ws as [|w ws IH]; intros m; simpl; [done|].
  rewrite !bind_outcome, attr_candidate_same.
  destruct (outcome (attr_candidate rt self _ _ _ _ _ _ _)); [apply IH|done].
Qed.

Lemma relax_loop_same fuel text expr attr thisobject thistype words noprefix
    m :
  outcome (relax_loop rt fuel self' text expr attr thisobject thistype words
             noprefix m)
  = outcome (relax_loop rt fuel self text expr attr thisobject thistype words
               noprefix m).
Proof.
  revert noprefix m. induction fuel as [|fuel IH]; intros noprefix m; simpl;
    [done|].
  rewrite !bind_outcome, words_loop_same.
  destruct (outcome (words_loop rt self _ _ _ _ _ _ _ _)) as [m'|]; [|done].
  destruct (_ || _); [done|apply IH].
Qed.

Lemma attr_matches_same text :
  outcome (attr_matches rt self' text) = outcome (attr_matches rt self text).
Proof.
  unfold attr_matches. destruct (re_match text) as [[expr attr]|]; [|done].
  unfold get_namespace. rewrite same_namespace.
  rewrite !bind_outcome.
  destruct (outcome (try_except _ _ _)) as [[o|]|]; [|done..].
  unfold attr_scan. rewrite !bind_outcome.
  destruct (outcome (attr_words o)) as [words|]; [|done].
  by rewrite !bind_outcome, relax_loop_same.
Qed.

(** What [get_matches] returns depends on the filter chains through
    their verdicts only. *)
Lemma get_matches_same text :
  outcome (get_matches rt self' text) = outcome (get_matches rt self text).
Proof.
  unfold get_matches.
  destruct (contains_char "." text);
    [apply attr_matches_same|apply global_matches_same].
Qed.
End SameVerdicts.

(** X15. Filters that keep every suggestion, as the [filter] method of
    [Filter], [NamespaceFilter] and [AttributeFilter] does, leave the
    completions as they are: with only such filters registered,
    [get_matches] returns what it returns with no filter at all. *)
Theorem accepting_filters_change_no_result self text :
  Forall (λ f, ∀ tgt w v text opts,
            filter (heap rt f) tgt w v text opts = Ok true)
         (namespace_filters self ++ attribute_filters self) →
  outcome (get_matches rt self text)
  = outcome (get_matches rt (without_filters self) text).
Proof.
  intros [Hn Ha]%Forall_app. apply get_matches_same; [done| |].
  - intros nspace w v t o. unfold filter_namespace.
    by rewrite _filter_accepting.
  - intros o w v t opts. unfold filter_attribute.
    by rewrite _filter_accepting.
Qed.

(** X16. Nothing is evaluated and no attribute is read for a text that
    does not start with names joined by dots and followed by a dot: the
    pattern of [attr_matches] fails on it, and all [get_matches] does is
    call namespace filters, with this text and no option; with a dot in
    the text it does nothing at all and returns the empty list. *)
Theorem nothing_is_evaluated_without_a_dotted_chain self text :
  re_match text = None →
  (¬ prefix_shape text)
  ∧ Forall (λ ev, ∃ f tgt w v, ev = EvFilter f tgt w v text no_options)
           (events (get_matches rt self text))
  ∧ (contains_char "." text = true → get_matches rt self text = ([], Ok [])).
Proof.
  intros Hno. split_and!.
  - rewrite <-re_match_shape, Hno. by intros [? ?].
  - unfold get_matches. destruct (contains_char "." text).
    { unfold attr_matches. rewrite Hno. constructor. }
    unfold global_matches. rewrite keyword_loop_eq. cbv beta iota zeta.
    rewrite bind_events. unfold get_namespace.
    destruct (namespace self) as [ns|]; [|constructor].
    change (outcome (mret ns)) with (Ok ns : result scope).
    change (events (mret ns : M scope)) with (@nil event).
    cbv beta iota. rewrite app_nil_l.
    rewrite bind_events. apply Forall_app. split.
    + eapply Forall_impl; [apply nspaces_loop_events|].
      intros ev (f & tgt & w & v & -> & _). by exists f, tgt, w, v.
    + destruct (outcome _); constructor.
  - intros Hdot. unfold get_matches, attr_matches. by rewrite Hdot, Hno.
Qed.
End VerdictFacts.

(** ** The namespace of a completer and the calls of [complete] *)

Section BindingFacts.
Context (rt : runtime).

(** X17. Without a namespace that has [items()] the completion of a name
    fails: [global_matches] raises [AttributeError] before it returns any
    keyword, both when [self.namespace] was never set and when it is not a
    mapping (as an empty list, which [__init__] lets through);
    [attr_matches] on a completer whose namespace was never set returns
    the empty list instead; and [complete] on a completer with a namespace
    of its own that is no mapping raises the [AttributeError] for a text
    without a dot. *)
Theorem completion_without_a_mapping self text :
  no_mapping (namespace self) →
  global_matches rt self text = ([], Raise AttributeError)
  ∧ (namespace self = None → attr_matches rt self text = ([], Ok []))
  ∧ (use_main_ns self = 0 → str_truthy (strip text) = true →
     contains_char "." text = false →
     complete rt self text 0 = (self, ([], Raise AttributeError))).
Proof.
  intros Hno.
  assert (global_matches rt self text = ([], Raise AttributeError)) as Hg.
  { unfold global_matches. rewrite keyword_loop_eq. cbv beta iota zeta.
    unfold get_namespace.
    destruct (namespace self) as [[d|d|xs|b]|]; try done. }
  split_and!; [done| |].
  - intros Hns. unfold attr_matches, get_namespace. rewrite Hns.
    by destruct (re_match text) as [[expr attr]|].
  - intros Hu Hs Hdot. rewrite complete_first by done.
    assert (bind_namespace rt self = self) as ->.
    { unfold bind_namespace. by rewrite Hu. }
    unfold get_matches. by rewrite Hdot, Hg.
Qed.

Lemma complete_frame self text state :
  namespace_filters (complete rt self text state).1 = namespace_filters self
  ∧ attribute_filters (complete rt self text state).1 = attribute_filters self
  ∧ use_main_ns (complete rt self text state).1 = use_main_ns self
  ∧ namespace (complete rt self text state).1
    = namespace (bind_namespace rt self).
Proof.
  assert (namespace_filters (bind_namespace rt self) = namespace_filters self
          ∧ attribute_filters (bind_namespace rt self) = attribute_filters self
          ∧ use_main_ns (bind_namespace rt self) = use_main_ns self)
    as (Hn & Ha & Hu).
  { unfold bind_namespace. by destruct (negb _). }
  unfold complete. cbv zeta.
  destruct (negb (str_truthy (strip text))); [done|].
  destruct (state =? 0); [|done].
  by destruct (get_matches rt (bind_namespace rt self) text) as [t [ms|e]].
Qed.

Lemma bind_namespace_namespace self :
  namespace (bind_namespace rt self)
  = if bool_decide (use_main_ns self = 0) then namespace self
    else Some (ScopeDict (main_dict rt)).
Proof.
  unfold bind_namespace. case_bool_decide as Hu.
  - by rewrite Hu.
  - apply Z.eqb_neq in Hu. by rewrite Hu.
Qed.

(** X18. Calls of [complete] never touch the filter chains nor the flag
    [use_main_ns], whatever the texts and states and whether the calls
    return or raise. A completer made with a namespace keeps it; one made
    without is bound to [__main__.__dict__] from its first call on. *)
Theorem complete_keeps_filters_and_binding self calls :
  namespace_filters (after_calls rt self calls) = namespace_filters self
  ∧ attribute_filters (after_calls rt self calls) = attribute_filters self
  ∧ use_main_ns (after_calls rt self calls) = use_main_ns self
  ∧ namespace (after_calls rt self calls)
    = (if bool_decide (use_main_ns self = 0 ∨ calls = []) then namespace self
       else Some (ScopeDict (main_dict rt)))
  ∧ (∀ ns, Completer_init (Some ns) = Ok self →
       namespace (after_calls rt self calls) = Some ns)
  ∧ (Completer_init None = Ok self → calls ≠ [] →
       namespace (after_calls rt self calls)
       = Some (ScopeDict (main_dict rt))).
Proof.
  assert (namespace_filters (after_calls rt self calls) = namespace_filters self
          ∧ attribute_filters (after_calls rt self calls)
            = attribute_filters self
          ∧ use_main_ns (after_calls rt self calls) = use_main_ns self
          ∧ namespace (after_calls rt self calls)
            = if bool_decide (use_main_ns self = 0 ∨ calls = [])
              then namespace self
              else Some (ScopeDict (main_dict rt)))
    as (Hn & Ha & Hu & Hns).
  { induction calls as [|[text state] calls IH] using rev_ind.
    { split_and!; [done..|]. rewrite bool_decide_eq_true_2; auto. }
    unfold after_calls in *. rewrite foldl_app. simpl.
    destruct IH as (IHn & IHa & IHu & IHns).
    destruct (complete_frame
                (foldl (λ s c, (complete rt s c.1 c.2).1) self calls)
                text state) as (Hn & Ha & Hu & Hns).
    rewrite Hn, Ha, Hu, Hns, bind_namespace_namespace, IHu, IHns.
    split_and!; [done..|].
    destruct (decide (use_main_ns self = 0)) as [Hz|Hnz].
    - rewrite !bool_decide_eq_true_2; auto.
    - rewrite (bool_decide_eq_false_2 (use_main_ns self = 0)) by done.
      rewrite (bool_decide_eq_false_2 (_ ∨ calls ++ _ = [])); [done|].
      intros [?|?%app_eq_nil]; naive_solver. }
  split_and!; [done..| |].
  - intros ns Hinit.
    assert (use_main_ns self = 0 ∧ namespace self = Some ns) as [Hz Hself].
    { unfold Completer_init in Hinit.
      destruct (_ && _); [done|]. by injection Hinit as <-. }
    rewrite Hns, bool_decide_eq_true_2; auto.
  - intros Hinit Hcalls.
    assert (use_main_ns self = 1) as Hone by (by injection Hinit as <-).
    rewrite Hns, bool_decide_eq_false_2; [done|].
    rewrite Hone. intros [?|?]; done.
Qed.



(** X20. [complete] takes a text for empty exactly when it holds nothing
    but whitespace. For such a text it computes no match: with state [0]
    it inserts a tab through readline and returns the empty string, or
    returns the tab when readline is missing, and with any other state it
    returns [None]; the list of matches stays as it was. *)
Theorem complete_blank_text_inserts_tab self text state :
  (str_truthy (strip text) = false ↔ is_blank text = true)
  ∧ (is_blank text = true →
     complete rt self text state
     = (bind_namespace rt self,
        if state =? 0 then
          if _readline_available rt
          then ([EvInsertText tab; EvRedisplay], Ok (Some ""))
          else ([], Ok (Some tab))
        else ([], Ok None))).
Proof.
  split; [apply strip_blank|].
  intros Hb%strip_blank. unfold complete. rewrite Hb. simpl.
  destruct (state =? 0); [|done]. by destruct (_readline_available rt).
Qed.
End BindingFacts.

(** ** The further properties on concrete inputs *)

(** X1, an instance: a filter of priority 10 registered into the chain of
    the priorities 10 and 50, and removed again. *)
Lemma remove_filter_undoes_add_filter_witness :
  (_add_filter sample_runtime [10; 50]%nat 11%nat).2 = true
  ∧ _remove_filter (_add_filter sample_runtime [10; 50]%nat 11%nat).1 11%nat
    = ([10; 50]%nat, true)
  ∧ _has_filter (_add_filter sample_runtime [10; 50]%nat 11%nat).1 11%nat
    = true.
Proof.
  apply (remove_filter_undoes_add_filter sample_runtime [10; 50]%nat 11%nat).
  apply (bool_decide_unpack _). vm_compute. exact I.
Defined.

(** X3, an instance: the filter of priority 10 stands behind the one of
    priority 50 and is registered once more, in front of it. *)
Lemma add_filter_stops_at_first_larger_priority_witness :
  _add_filter sample_runtime [50; 10]%nat 10%nat
  = ([10; 50; 10]%nat, true).
Proof.
  destruct (add_filter_stops_at_first_larger_priority sample_runtime
              [] 50%nat [10%nat] 10%nat) as [H _].
  - apply (bool_decide_unpack _). vm_compute. exact I.
  - constructor.
  - vm_compute. reflexivity.
  - exact H.
Defined.

(** X4, an instance: the filter that rejects stands between one that
    accepts and one that would raise. *)
Lemma filter_chain_stops_at_first_refusal_witness :
  _filter sample_runtime [0; 1; 2]%nat (OfScope (ScopeDict sample_namespace))
    "spam" (function_of 0) "sp" no_options
  = ([EvFilter 0%nat (OfScope (ScopeDict sample_namespace)) "spam"
               (function_of 0) "sp" no_options;
      EvFilter 1%nat (OfScope (ScopeDict sample_namespace)) "spam"
               (function_of 0) "sp" no_options],
     Ok false).
Proof.
  destruct (filter_chain_stops_at_first_refusal sample_runtime [0%nat] 1%nat
              [2%nat] (OfScope (ScopeDict sample_namespace)) "spam"
              (function_of 0) "sp" no_options) as (_ & H & _).
  - repeat constructor.
  - exact (H eq_refl).
Defined.

(** X5, an instance: the filter against underscore names and the filter
    for callables, in both orders. *)
Lemma filter_chain_is_a_conjunction_witness :
  outcome (_filter sample_runtime [4; 3]%nat
             (OfScope (ScopeDict sample_namespace)) "egg" egg_object "e"
             no_options)
  = outcome (_filter sample_runtime [3; 4]%nat
               (OfScope (ScopeDict sample_namespace)) "egg" egg_object "e"
               no_options).
Proof.
  destruct (filter_chain_is_a_conjunction sample_runtime [3; 4]%nat
              [4; 3]%nat (OfScope (ScopeDict sample_namespace)) "egg"
              egg_object "e" no_options) as (_ & _ & H).
  - repeat constructor; eexists; reflexivity.
  - apply H. apply perm_swap.
Defined.

(** X6, an instance: [spam] of the namespace is callable and passes the
    filter for callables. *)
Lemma global_matches_offers_accepted_names_witness :
  ∃ c, _callable_postfix (function_of 0) "spam" = ([], Ok c)
       ∧ c ∈ ["spam()"].
Proof.
  destruct (global_matches_offers_accepted_names sample_runtime
              (sample_completer [4%nat] []) "sp"
              (ScopeDict sample_namespace) sample_namespace ["spam()"])
    as [H _].
  - reflexivity.
  - by left.
  - vm_compute. reflexivity.
  - apply (H "spam" (function_of 0)).
    + reflexivity.
    + by exists "am".
    + apply (bool_decide_unpack _). vm_compute. exact I.
    + discriminate.
    + vm_compute. reflexivity.
Defined.

(** X7, an instance: the keyword comes before the name of the
    namespace. *)
Lemma global_matches_keeps_source_order_witness :
  ∃ d kws names builtin_names cands1 cands2,
    (namespace (sample_completer [] []) = Some (ScopeDict d)
     ∨ namespace (sample_completer [] []) = Some (ScopeMapping d))
    ∧ ["lambda "; "len"] = (keyword_word <$> kws) ++ cands1 ++ cands2
    ∧ kws `sublist_of` kwlist sample_runtime ++ softkwlist sample_runtime
    ∧ Forall2 postfixed names cands1 ∧ names `sublist_of` d.*1
    ∧ Forall2 postfixed builtin_names cands2
    ∧ builtin_names `sublist_of` (builtins_dict sample_runtime).*1.
Proof.
  apply (global_matches_keeps_source_order sample_runtime
           (sample_completer [] []) "l" ["lambda "; "len"]).
  vm_compute. reflexivity.
Defined.

(** X10, an instance: the members of [egg] that start with ["s"]. *)
Lemma attr_candidates_sorted_and_prefixed_witness :
  StronglySorted String.le ["egg.spam"; "egg.strip("]
  ∧ Forall (is_prefix ("egg" +:+ "." +:+ "s")) ["egg.spam"; "egg.strip("]
  ∧ ∃ words sel cands,
      outcome (attr_words egg_object) = Ok words
      ∧ ["egg.spam"; "egg.strip("] ≡ₚ cands
      ∧ Forall2 (λ w c, postfixed ("egg" +:+ "." +:+ w) c) sel cands
      ∧ NoDup sel
      ∧ Forall (λ w, w ∈ words ∧ is_prefix "s" w) sel.
Proof.
  apply (attr_candidates_sorted_and_prefixed sample_runtime
           (sample_completer [] []) "egg.s" "egg" "s" egg_object).
  vm_compute. reflexivity.
Defined.

(** X11, an instance: [spam] of [egg] is offered. *)
Lemma attr_scan_offers_accepted_members_witness :
  outcome (attr_words egg_object)
  = Ok (list_to_set ["__class__"; "__init__"; "__doc__"; "strip"; "spam"])
  ∧ "egg.spam" ∈ ["egg.spam"; "egg.strip("]
  ∧ ["egg.spam"; "egg.strip("]
    = sort (omap (first_pass_candidate sample_runtime
                    (sample_completer [] []) "egg.s" "egg" "s" egg_object)
                 (elements
                    (list_to_set ["__class__"; "__init__"; "__doc__";
                                  "strip"; "spam"] : gset string))).
Proof.
  split; [vm_compute; reflexivity|].
  apply (attr_scan_offers_accepted_members sample_runtime
           (sample_completer [] []) "egg.s" "egg" "s" egg_object
           ["egg.spam"; "egg.strip("]
           (list_to_set ["__class__"; "__init__"; "__doc__"; "strip"; "spam"])
           "spam" "egg.spam").
  - vm_compute. reflexivity.
  - vm_compute. reflexivity.
  - apply (bool_decide_unpack _). vm_compute. exact I.
  - vm_compute. reflexivity.
Defined.

(** X12, an instance: all the members of [x] start with an underscore. *)
Lemma attr_matches_never_mix_public_and_private_witness :
  ∃ words sel cands,
    outcome (attr_words private_object) = Ok words
    ∧ ["x.__class__()"; "x.__doc__"; "x._sunder"] ≡ₚ cands
    ∧ Forall2 (λ w c, postfixed ("x" +:+ "." +:+ w) c) sel cands
    ∧ (Forall (λ w, is_prefix "" w ∧ ¬ is_prefix ("" +:+ "_") w) sel
       ∨ Forall (is_prefix ("" +:+ "_")) sel
         ∧ Forall (λ w,
             first_pass_candidate sample_runtime (sample_completer [] [])
               "x." "x" "" private_object w = None)
             (elements words)).
Proof.
  apply (attr_matches_never_mix_public_and_private sample_runtime
           (sample_completer [] []) "x." "x" "" private_object).
  - by left.
  - vm_compute. reflexivity.
Defined.

(** X13, the bounds are reached: with a filter that rejects everything
    all three passes read [spam], and for the text ["egg.__c"] the member
    [__class__] is read twice before the loop and once in it. *)
Lemma attr_member_read_bound_reached :
  reads "spam"
    (events (attr_scan sample_runtime (sample_completer [] [1%nat]) "egg."
               "egg" "" egg_object))
  = passes ""
  ∧ reads "__class__"
      (events (attr_scan sample_runtime (sample_completer [] []) "egg.__c"
                 "egg" "__c" egg_object))
    = (passes "__c" + 2)%nat.
Proof. split; vm_compute; reflexivity. Qed.

(** X14, an instance: the member [boom] raises [RuntimeError]. *)
Lemma broken_member_aborts_the_scan_witness :
  attr_candidate sample_runtime (sample_completer [] []) "b.b" "b" "b"
    broken_object (type_of broken_object) (initial_noprefix "b") "boom"
  = ([EvGetattr broken_object "boom"], Raise RuntimeError)
  ∧ ∃ e', outcome (attr_scan sample_runtime (sample_completer [] []) "b.b"
                     "b" "b" broken_object) = Raise e'.
Proof.
  apply (broken_member_aborts_the_scan sample_runtime (sample_completer [] [])
           "b.b" "b" "b" broken_object "boom" RuntimeError).
  - intros words Hwords.
    assert (outcome (attr_words broken_object)
            = Ok (list_to_set ["boom"; "fine"])) as Hset
      by (vm_compute; reflexivity).
    rewrite Hset in Hwords. injection Hwords as <-.
    apply (bool_decide_unpack _). vm_compute. exact I.
  - vm_compute. reflexivity.
  - reflexivity.
  - reflexivity.
  - reflexivity.
Defined.

(** X8, an example: a base that is reached on two ways is listed
    twice. *)
Lemma class_members_of_a_diamond :
  get_class_members diamond_class
  = ["own"; "left"; "ping"; "__class__"; "__doc__"; "__init__"; "right";
     "ping"; "__class__"; "__doc__"; "__init__"].
Proof. reflexivity. Qed.

(** X15, an instance: three accepting filters, of two priorities. *)
Lemma accepting_filters_change_no_result_witness :
  outcome (get_matches sample_runtime (sample_completer [50; 0]%nat [0%nat])
             "egg.s")
  = outcome (get_matches sample_runtime
               (without_filters (sample_completer [50; 0]%nat [0%nat]))
               "egg.s").
Proof.
  apply (accepting_filters_change_no_result sample_runtime
           (sample_completer [50; 0]%nat [0%nat]) "egg.s").
  repeat constructor.
Defined.

(** X16, an instance: a call is not a chain of names. *)
Lemma nothing_is_evaluated_without_a_dotted_chain_witness :
  get_matches sample_runtime (sample_completer [] []) "f().b" = ([], Ok []).
Proof.
  destruct (nothing_is_evaluated_without_a_dotted_chain sample_runtime
              (sample_completer [] []) "f().b") as (_ & _ & H).
  - vm_compute. reflexivity.
  - exact (H eq_refl).
Defined.

(** X17, an instance: the empty list is accepted as a namespace by
    [__init__], and the completion of a name fails on it. *)
Lemma completion_without_a_mapping_witness :
  Completer_init (Some (ScopeList []))
  = Ok (MkCompleter [] [] 0 (Some (ScopeList [])) None)
  ∧ complete sample_runtime (MkCompleter [] [] 0 (Some (ScopeList [])) None)
      "sp" 0
    = (MkCompleter [] [] 0 (Some (ScopeList [])) None,
       ([], Raise AttributeError)).
Proof.
  split; [reflexivity|].
  destruct (completion_without_a_mapping sample_runtime
              (MkCompleter [] [] 0 (Some (ScopeList [])) None) "sp")
    as (_ & _ & H).
  - exact I.
  - exact (H eq_refl eq_refl eq_refl).
Defined.

